(** * statikomand: the command grammar, its parser and its completion engine

    A shallow embedding of [src/statikomand/komand_parser.py].

    - Python [str] is [string]; [list[str]] is [list string].
    - The classes [KomandArg], [PositionalKomandArg], [OptionalKomandArg]
      are records (the subclasses embed their base record).
    - [KomandParser] is a record of the three mutable attributes; its
      methods are computations in a state-and-exception monad [M] over
      that record, so that a method that assigns to [self] and a method
      that raises halfway are both visible in the model.
    - [ParsedKomandArgs], the attribute bag filled with [__setattr__],
      is a finite map from attribute name to [option string]
      ([None] is Python's [None]). *)

From Stdlib Require Import String Ascii.
From stdpp Require Import gmap strings list.

Local Open Scope string_scope.
Local Open Scope list_scope.
Local Open Scope nat_scope.

(** ** Exceptions and results *)

Inductive exn : Type :=
| IndexError
| AttributeError
| NoClosingQuotation
| NoEscapedCharacter
| EmptyNameOrFlag (k : nat)
| AlreadyDefined (each_name_or_flag : string)
| HeterogenousFlags (flags : list string) (each_name_or_flag : string)
| OnlyOneName (name_or_flags_list : list string)
| NotEnoughPositionals (expected got : nat)
| TooMuchPositionals (expected got : nat)
| UnexpectedFlagName (flag_name : string)
| UnknownFlagName (flag_name : string).

Inductive result (A : Type) : Type :=
| Ok (a : A)
| Raise (e : exn).
Arguments Ok {A} a.
Arguments Raise {A} e.

#[global] Instance result_ret : MRet result := λ A a, Ok a.
#[global] Instance result_bind : MBind result := λ A B f r,
  match r with
  | Ok a => f a
  | Raise e => Raise e
  end.

(** ** Python string and list primitives *)

Definition dash : ascii := "-"%char.
Definition space : ascii := " "%char.

(** [s[0]] *)
Definition str_first (s : string) : result ascii :=
  match s with
  | EmptyString => Raise IndexError
  | String c _ => Ok c
  end.

(** [s[-1]] *)
Fixpoint str_last (s : string) : result ascii :=
  match s with
  | EmptyString => Raise IndexError
  | String c EmptyString => Ok c
  | String _ s' => str_last s'
  end.

(** [s.startswith(p)] *)
Definition startswith (s p : string) : bool := String.prefix p s.

(** [s[:n]] *)
Definition str_take (n : nat) (s : string) : string := String.substring 0 n s.

Definition ascii_in (c : ascii) (chars : string) : bool :=
  bool_decide (c ∈ list_ascii_of_string chars).

Fixpoint lstrip (chars s : string) : string :=
  match s with
  | EmptyString => EmptyString
  | String c s' => if ascii_in c chars then lstrip chars s' else s
  end.

Fixpoint rstrip (chars s : string) : string :=
  match s with
  | EmptyString => EmptyString
  | String c s' =>
      match rstrip chars s' with
      | EmptyString => if ascii_in c chars then EmptyString else String c EmptyString
      | t => String c t
      end
  end.

(** [s.strip(chars)]: removes from both ends every character that
    occurs in [chars]. *)
Definition strip (chars s : string) : string := rstrip chars (lstrip chars s).

(** [l[i]] for [0 <= i] *)
Definition index {A} (l : list A) (i : nat) : result A :=
  match l !! i with
  | Some a => Ok a
  | None => Raise IndexError
  end.

(** [l[-1]] *)
Definition index_last {A} (l : list A) : result A :=
  match last l with
  | Some a => Ok a
  | None => Raise IndexError
  end.

(** [x in l] *)
Definition str_in (x : string) (l : list string) : bool := bool_decide (x ∈ l).

(** [range(start, stop, step)] for [step > 0].  Lengths are naturals
    here, so a [stop] of [len(l) - 1] is 0 where Python has [-1]; both
    give the empty range because [start] is never negative. *)
Definition py_range (start stop step : nat) : list nat :=
  (λ i, start + step * i) <$> seq 0 ((stop - start + (step - 1)) / step).

(** ** shlex.split

    The source tokenizes with the standard library's [shlex.split(s)]:
    POSIX mode, [whitespace_split] on, no comment characters.  This is
    the tokenizer's character loop ([shlex.read_token]), run over the
    whole line. *)

Module shlex.

Inductive state : Type :=
| InSpace                                (* state ' ' *)
| InWord                                 (* state 'a' *)
| InQuote (q : ascii)                    (* state is a quote character *)
| InEscape (escapedstate : option ascii) (* state '\\'; None is 'a' *).

Definition whitespace : string :=
  String " " (String "009" (String "013" (String "010" EmptyString))).
Definition quotes : string := String "'" (String "034" EmptyString).
Definition escape : ascii := "\"%char.
Definition escapedquotes : string := String "034" EmptyString.

Definition push (token : string) (c : ascii) : string :=
  token +:+ String c EmptyString.

Definition emit (token : string) (quoted : bool) (rest : result (list string))
  : result (list string) :=
  if negb (String.eqb token EmptyString) || quoted
  then toks ← rest; mret (token :: toks)
  else rest.

Fixpoint read_tokens (cs : list ascii) (st : state) (token : string)
    (quoted : bool) : result (list string) :=
  match cs with
  | [] =>
      match st with
      | InSpace => Ok []
      | InWord => emit token quoted (Ok [])
      | InQuote _ => Raise NoClosingQuotation
      | InEscape _ => Raise NoEscapedCharacter
      end
  | nextchar :: cs' =>
      match st with
      | InSpace =>
          if ascii_in nextchar whitespace then read_tokens cs' InSpace EmptyString false
          else if bool_decide (nextchar = escape)
          then read_tokens cs' (InEscape None) EmptyString false
          else if ascii_in nextchar quotes
          then read_tokens cs' (InQuote nextchar) EmptyString false
          else read_tokens cs' InWord (String nextchar EmptyString) false
      | InQuote q =>
          if bool_decide (nextchar = q) then read_tokens cs' InWord token true
          else if bool_decide (nextchar = escape) && ascii_in q escapedquotes
          then read_tokens cs' (InEscape (Some q)) token true
          else read_tokens cs' (InQuote q) (push token nextchar) true
      | InEscape None =>
          read_tokens cs' InWord (push token nextchar) quoted
      | InEscape (Some q) =>
          let token :=
            if negb (bool_decide (nextchar = escape))
               && negb (bool_decide (nextchar = q))
            then push token escape else token in
          read_tokens cs' (InQuote q) (push token nextchar) quoted
      | InWord =>
          if ascii_in nextchar whitespace
          then emit token quoted (read_tokens cs' InSpace EmptyString false)
          else if ascii_in nextchar quotes
          then read_tokens cs' (InQuote nextchar) token quoted
          else if bool_decide (nextchar = escape)
          then read_tokens cs' (InEscape None) token quoted
          else read_tokens cs' InWord (push token nextchar) quoted
      end
  end.

Definition split (s : string) : result (list string) :=
  read_tokens (list_ascii_of_string s) InSpace EmptyString false.

End shlex.

(** ** The argument classes *)

Module KomandArg.

Record t : Type := mk {
  label : string;
  help : option string;
  completer : option (string → list string)
}.

(** [KomandArg.__init__] *)
Definition init (label : string) (completer : option (string → list string))
    (help : option string) : t :=
  {| label := label; help := help; completer := completer |}.

(** [KomandArg.do_complete] *)
Definition do_complete (self : t) (code : string) : list string :=
  match completer self with
  | None => []
  | Some f => f code
  end.

End KomandArg.

Module PositionalKomandArg.

Record t : Type := mk {
  base : KomandArg.t;
  name : string
}.

(** [PositionalKomandArg.__init__].  The message of the [ValueError] it
    means to raise reads [self.label] before the base initialiser has
    set it, so what is raised there is an [AttributeError]. *)
Definition init (name : string) (completer : option (string → list string))
    (label : option string) (help : option string) : result t :=
  let label := match label with None => name | Some l => l end in
  c ← str_first name;
  if bool_decide (c = dash) then Raise AttributeError
  else Ok {| base := KomandArg.init label completer help; name := name |}.

End PositionalKomandArg.

Module OptionalKomandArg.

Record t : Type := mk {
  base : KomandArg.t;
  flags : list string
}.

(** the loop of lines 79-83 *)
Fixpoint check_flags (flags rest : list string) : result unit :=
  match rest with
  | [] => Ok ()
  | each_name_or_flag :: rest' =>
      c ← str_first each_name_or_flag;
      if negb (bool_decide (c = dash))
      then Raise (HeterogenousFlags flags each_name_or_flag)
      else check_flags flags rest'
  end.

(** [OptionalKomandArg.__init__] *)
Definition init (flags : list string) (completer : option (string → list string))
    (label : option string) (help : option string) : result t :=
  label ← match label with
          | None => f0 ← index flags 0; Ok (strip "--" f0)
          | Some l => Ok l
          end;
  _ ← check_flags flags flags;
  Ok {| base := KomandArg.init label completer help; flags := flags |}.

End OptionalKomandArg.

(** ** The parser object and its monad *)

Record KomandParser : Type := mkKomandParser {
  description : string;
  all_names_and_flags : list string;
  flags : list OptionalKomandArg.t;
  positionals : list PositionalKomandArg.t
}.

(** [KomandParser.__init__] *)
Definition KomandParser_init (description : option string) : KomandParser :=
  {| description := default EmptyString description;
     all_names_and_flags := [];
     flags := [];
     positionals := [] |}.

(** A method of [KomandParser]: it receives [self], returns a value or
    raises, and leaves [self] in some state either way. *)
Definition M (A : Type) : Type := KomandParser → result A * KomandParser.

#[global] Instance M_ret : MRet M := λ A a self, (Ok a, self).
#[global] Instance M_bind : MBind M := λ A B f m self,
  match m self with
  | (Ok a, self') => f a self'
  | (Raise e, self') => (Raise e, self')
  end.

Definition raise {A} (e : exn) : M A := λ self, (Raise e, self).
Definition lift {A} (r : result A) : M A := λ self, (r, self).
Definition get_self : M KomandParser := λ self, (Ok self, self).

(** [self.flags.append(x)] *)
Definition flags_append (x : OptionalKomandArg.t) : M unit := λ self,
  (Ok (), {| description := description self;
             all_names_and_flags := all_names_and_flags self;
             flags := (flags self ++ [x])%list;
             positionals := positionals self |}).

(** [self.positionals.append(x)] *)
Definition positionals_append (x : PositionalKomandArg.t) : M unit := λ self,
  (Ok (), {| description := description self;
             all_names_and_flags := all_names_and_flags self;
             flags := flags self;
             positionals := (positionals self ++ [x])%list |}).

(** [self.all_names_and_flags += l] *)
Definition all_names_and_flags_extend (l : list string) : M unit := λ self,
  (Ok (), {| description := description self;
             all_names_and_flags := (all_names_and_flags self ++ l)%list;
             flags := flags self;
             positionals := positionals self |}).

(** ** KomandParser.add_argument *)

(** the loop of lines 132-134 *)
Fixpoint check_not_empty (k : nat) (rest : list string) : result unit :=
  match rest with
  | [] => Ok ()
  | each_arg :: rest' =>
      if (String.length each_arg =? 0)%nat then Raise (EmptyNameOrFlag k)
      else check_not_empty (S k) rest'
  end.

(** the loop of lines 136-140 *)
Fixpoint check_not_defined (rest : list string) : M unit :=
  match rest with
  | [] => mret ()
  | each_name_or_flag :: rest' =>
      self ← get_self;
      if str_in each_name_or_flag (all_names_and_flags self)
      then raise (AlreadyDefined each_name_or_flag)
      else check_not_defined rest'
  end.

Definition add_argument (name_or_flags : list string)
    (completer : option (string → list string)) (label : option string)
  : M unit :=
  let name_or_flags_list := name_or_flags in
  _ ← lift (check_not_empty 0 name_or_flags_list);
  _ ← check_not_defined name_or_flags_list;
  first_name_or_flag ← lift (index name_or_flags_list 0);
  c ← lift (str_first first_name_or_flag);
  added_name_or_flags ←
    (if bool_decide (c = dash) then
       arg ← lift (OptionalKomandArg.init name_or_flags_list completer label None);
       _ ← flags_append arg;
       mret ([] ++ name_or_flags_list)%list
     else
       if (1 <? length name_or_flags_list)%nat
       then raise (OnlyOneName name_or_flags_list)
       else
         n0 ← lift (index name_or_flags_list 0);
         arg ← lift (PositionalKomandArg.init n0 completer label None);
         _ ← positionals_append arg;
         n0' ← lift (index name_or_flags_list 0);
         mret ([] ++ [n0'])%list);
  all_names_and_flags_extend added_name_or_flags.

(** ** The completion engine *)

(** the loop of lines 176-182 *)
Fixpoint do_complete_flag_name_loop (word : string) (rest : list string)
    (all_matches : list string) : result (list string) :=
  match rest with
  | [] => Ok all_matches
  | each_name :: rest' =>
      c ← str_first each_name;
      if negb (bool_decide (c = dash))
      then do_complete_flag_name_loop word rest' all_matches
      else if (String.length each_name <? String.length word)%nat
      then do_complete_flag_name_loop word rest' all_matches
      else if String.eqb (str_take (String.length word) each_name) word
      then do_complete_flag_name_loop word rest' (all_matches ++ [each_name])%list
      else do_complete_flag_name_loop word rest' all_matches
  end.

Definition do_complete_flag_name (word : string) : M (list string) :=
  self ← get_self;
  lift (do_complete_flag_name_loop word (all_names_and_flags self) []).

(** the loop of lines 201-204; [None] is the implicit [return None] *)
Fixpoint try_complete_flag_value_loop (flag_name word : string)
    (rest : list OptionalKomandArg.t) : option (list string) :=
  match rest with
  | [] => None
  | each_flag :: rest' =>
      if negb (str_in flag_name (OptionalKomandArg.flags each_flag))
      then try_complete_flag_value_loop flag_name word rest'
      else Some (KomandArg.do_complete (OptionalKomandArg.base each_flag) word)
  end.

Definition try_complete_flag_value (flag_name word : string)
  : M (option (list string)) :=
  self ← get_self;
  if negb (str_in flag_name (all_names_and_flags self)) then mret None
  else
    self ← get_self;
    mret (try_complete_flag_value_loop flag_name word (flags self)).

(** the loop of lines 233-238 over [ks = range(last_word_rank)]; the
    result is [Some l] when the loop body returned [l], and [None] when
    the loop ran to its end *)
Fixpoint do_complete_loop (splitted_code : list string) (last_word : string)
    (last_word_rank : nat) (ks : list nat) : M (option (list string)) :=
  match ks with
  | [] => mret None
  | k :: ks' =>
      this_token ← lift (index splitted_code (last_word_rank - k));
      c ← lift (str_first this_token);
      if bool_decide (c = dash) then
        potential_matches ← try_complete_flag_value this_token last_word;
        match potential_matches with
        | Some l => mret (Some l)
        | None => do_complete_loop splitted_code last_word last_word_rank ks'
        end
      else do_complete_loop splitted_code last_word last_word_rank ks'
  end.

(** lines 233-243 *)
Definition do_complete_value (splitted_code : list string) (last_word : string)
    (last_word_rank : nat) : M (list string) :=
  returned ← do_complete_loop splitted_code last_word last_word_rank
                (py_range 0 last_word_rank 1);
  match returned with
  | Some potential_matches => mret potential_matches
  | None =>
      self ← get_self;
      if (length (positionals self) <=? last_word_rank)%nat then mret []
      else
        guessed_positional ← lift (index (positionals self) last_word_rank);
        mret (KomandArg.do_complete
                (PositionalKomandArg.base guessed_positional) last_word)
  end.

Definition do_complete (code : string) : M (list string) :=
  splitted_code ← lift (shlex.split code);
  last_word ← lift (index_last splitted_code);
  let last_word_rank := length splitted_code - 1 in
  c ← lift (str_first last_word);
  if bool_decide (c = dash) then
    e ← lift (str_last code);
    if negb (bool_decide (e = space)) then do_complete_flag_name last_word
    else do_complete_value splitted_code last_word last_word_rank
  else do_complete_value splitted_code last_word last_word_rank.

(** ** The parser *)

(** the loop of lines 250-252 *)
Fixpoint find_flag_with_name_loop (flag_name : string)
    (rest : list OptionalKomandArg.t) : result OptionalKomandArg.t :=
  match rest with
  | [] => Raise (UnknownFlagName flag_name)
  | each_flag :: rest' =>
      if str_in flag_name (OptionalKomandArg.flags each_flag) then Ok each_flag
      else find_flag_with_name_loop flag_name rest'
  end.

Definition find_flag_with_name (flag_name : string) : M OptionalKomandArg.t :=
  c ← lift (str_first flag_name);
  if negb (bool_decide (c = dash)) then raise (UnexpectedFlagName flag_name)
  else
    self ← get_self;
    if negb (str_in flag_name (all_names_and_flags self))
    then raise (UnknownFlagName flag_name)
    else
      self ← get_self;
      lift (find_flag_with_name_loop flag_name (flags self)).

(** [ParsedKomandArgs]: the attributes set so far; [Some None] is an
    attribute holding Python's [None]. *)
Abbreviation ParsedKomandArgs := (gmap string (option string)).

(** [obj.__setattr__(name, value)] *)
Definition setattr (obj : ParsedKomandArgs) (name : string)
    (value : option string) : ParsedKomandArgs := <[name := value]> obj.

(** the loop of lines 276-277 *)
Fixpoint init_flags_loop (rest : list OptionalKomandArg.t)
    (arg_obj : ParsedKomandArgs) : ParsedKomandArgs :=
  match rest with
  | [] => arg_obj
  | each_flag :: rest' =>
      init_flags_loop rest' (setattr arg_obj (KomandArg.label (OptionalKomandArg.base each_flag)) None)
  end.

(** the loop of lines 281-294; returns the final [positional_idx] and
    [arg_obj] *)
Fixpoint positional_loop (rest : list string) (positional_idx : nat)
    (arg_obj : ParsedKomandArgs) : M (nat * ParsedKomandArgs) :=
  match rest with
  | [] => mret (positional_idx, arg_obj)
  | component :: rest' =>
      self ← get_self;
      if startswith component "-" then
        if (positional_idx <? length (positionals self))%nat
        then raise (NotEnoughPositionals (length (positionals self)) positional_idx)
        else mret (positional_idx, arg_obj)
      else if (length (positionals self) <=? positional_idx)%nat
      then raise (TooMuchPositionals (length (positionals self)) (positional_idx + 1))
      else
        p ← lift (index (positionals self) positional_idx);
        let pos_label := KomandArg.label (PositionalKomandArg.base p) in
        positional_loop rest' (positional_idx + 1)
          (setattr arg_obj pos_label (Some component))
  end.

(** the loop of lines 297-300 over
    [ks = range(positional_idx, len(components) - 1, 2)] *)
Fixpoint flag_loop (components : list string) (ks : list nat)
    (arg_obj : ParsedKomandArgs) : M ParsedKomandArgs :=
  match ks with
  | [] => mret arg_obj
  | k :: ks' =>
      flag_name ← lift (index components k);
      flag_param ← lift (index components (k + 1));
      flag ← find_flag_with_name flag_name;
      flag_loop components ks'
        (setattr arg_obj (KomandArg.label (OptionalKomandArg.base flag))
           (Some flag_param))
  end.

(** lines 274-302: [parse] once the line is tokenized *)
Definition parse_components (components : list string) : M ParsedKomandArgs :=
  self ← get_self;
  let arg_obj := init_flags_loop (flags self) ∅ in
  '(positional_idx, arg_obj) ← positional_loop components 0 arg_obj;
  flag_loop components
    (py_range positional_idx (length components - 1) 2) arg_obj.

Definition parse (code : string) : M ParsedKomandArgs :=
  components ← lift (shlex.split code);
  parse_components components.

(** ** Building a parser: a sequence of [add_argument] calls *)

Record call : Type := mkCall {
  call_name_or_flags : list string;
  call_completer : option (string → list string);
  call_label : option string
}.

Definition run_call (c : call) : M unit :=
  add_argument (call_name_or_flags c) (call_completer c) (call_label c).

(** runs the calls in order from a fresh parser; a call that raises
    leaves the parser as it finds it there and the next call goes on *)
Definition step (self : KomandParser) (c : call) : KomandParser :=
  (run_call c self).2.

Definition build (calls : list call) : KomandParser :=
  foldl step (KomandParser_init None) calls.

Definition const_completer (l : list string) : option (string → list string) :=
  Some (λ _, l).

(** ** Vocabulary of the statements *)

(** a method that leaves [self] as it finds it *)
Definition readonly {A} (m : M A) : Prop := ∀ self, (m self).2 = self.

(** every spelling of every flag, in the order of declaration *)
Definition spellings (self : KomandParser) : list string :=
  mjoin (OptionalKomandArg.flags <$> flags self).

(** what every parser built by [add_argument] calls satisfies: no
    registered name is empty, and the registered names that start with
    a dash are the flag spellings, in the same order *)
Record wf (self : KomandParser) : Prop := mk_wf {
  wf_nonempty : Forall (λ n, n ≠ EmptyString) (all_names_and_flags self);
  wf_spellings :
    filter (λ n, startswith n "-" = true) (all_names_and_flags self)
      = spellings self
}.

(** [token] is a spelling of the registered flag [flag]: the lookup of
    [find_flag_with_name] succeeds with it. *)
Definition resolves (self : KomandParser) (token : string)
    (flag : OptionalKomandArg.t) : Prop :=
  (find_flag_with_name token self).1 = Ok flag.

(** [token] gives the scan nothing: it does not start with a dash, or
    it is no spelling of a registered flag. *)
Definition no_answer (self : KomandParser) (token : string) : Prop :=
  ∃ c, str_first token = Ok c ∧ (c = dash → ∀ flag, ¬ resolves self token flag).

(** the number of tokens before the first one that starts with a dash *)
Fixpoint count_leading (components : list string) : nat :=
  match components with
  | [] => 0
  | component :: rest =>
      if startswith component "-" then 0 else S (count_leading rest)
  end.

(** The scan as the specification words it: the scan starts at the token
    before the last one and reaches the first token. *)
Definition scan_from_preceding_token_as_stated : Prop :=
  ∀ (self : KomandParser) (code : string) (splitted_code : list string)
    (last_word token : string) (i : nat) (flag : OptionalKomandArg.t),
    shlex.split code = Ok splitted_code →
    last splitted_code = Some last_word →
    (str_first last_word = Ok dash → str_last code = Ok space) →
    i < length splitted_code - 1 →
    splitted_code !! i = Some token →
    str_first token = Ok dash →
    resolves self token flag →
    (∀ (j : nat) t, i < j < length splitted_code - 1 →
       splitted_code !! j = Some t → no_answer self t) →
    (do_complete code self).1 =
      Ok (KomandArg.do_complete (OptionalKomandArg.base flag) last_word).

(** The scan as the specification words it: a token that resolves to a flag
    without completer gives no answer either, and the scan goes on. *)
Definition no_answer_as_stated (self : KomandParser) (token : string) : Prop :=
  no_answer self token
  ∨ ∃ flag, str_first token = Ok dash ∧ resolves self token flag
            ∧ KomandArg.completer (OptionalKomandArg.base flag) = None.

Definition scan_skips_completerless_as_stated : Prop :=
  ∀ (self : KomandParser) (code : string) (splitted_code : list string)
    (last_word token : string) (i : nat) (flag : OptionalKomandArg.t)
    (completer : string → list string),
    shlex.split code = Ok splitted_code →
    last splitted_code = Some last_word →
    (str_first last_word = Ok dash → str_last code = Ok space) →
    1 ≤ i < length splitted_code →
    splitted_code !! i = Some token →
    str_first token = Ok dash →
    resolves self token flag →
    KomandArg.completer (OptionalKomandArg.base flag) = Some completer →
    (∀ (j : nat) t, i < j → splitted_code !! j = Some t →
       no_answer_as_stated self t) →
    (do_complete code self).1 = Ok (completer last_word).

(** ** Concrete parsers *)

Definition parser_flag_force : KomandParser :=
  build [mkCall ["P1"] (const_completer ["alpha"; "beta"]) None;
         mkCall ["--force"; "-f"] None None;
         mkCall ["--flag"] (const_completer ["True"; "False"]) None].

Definition parser_f_g : KomandParser :=
  build [mkCall ["P1"] None None;
         mkCall ["--f"] (const_completer ["F"]) None;
         mkCall ["--g"] (const_completer ["G"]) None].

Definition arg_flag : OptionalKomandArg.t :=
  {| OptionalKomandArg.base :=
       KomandArg.init "flag" (const_completer ["True"; "False"]) None;
     OptionalKomandArg.flags := ["--flag"] |}.

Definition arg_f : OptionalKomandArg.t :=
  {| OptionalKomandArg.base := KomandArg.init "f" (const_completer ["F"]) None;
     OptionalKomandArg.flags := ["--f"] |}.

Definition parser_a_b : KomandParser :=
  build [mkCall ["P1"] None None;
         mkCall ["P2"] None None;
         mkCall ["P3"] (const_completer ["alpha"; "beta"]) None;
         mkCall ["--a"] (const_completer ["A"]) None;
         mkCall ["--b"] None None].

Definition arg_a : OptionalKomandArg.t :=
  {| OptionalKomandArg.base := KomandArg.init "a" (const_completer ["A"]) None;
     OptionalKomandArg.flags := ["--a"] |}.

Definition arg_b : OptionalKomandArg.t :=
  {| OptionalKomandArg.base := KomandArg.init "b" None None;
     OptionalKomandArg.flags := ["--b"] |}.

Definition parser_two_positionals : KomandParser :=
  build [mkCall ["P1"] None None; mkCall ["P2"] None None].

Definition parser_repeated_flag : KomandParser :=
  build [mkCall ["P1"] None None; mkCall ["--flag"; "--flag"] None None].

(** reads the attributes [names] off a parse result; [None] is an
    attribute that was never set, [Some None] one that holds [None] *)
Definition getattrs (names : list string) (r : result ParsedKomandArgs)
  : result (list (option (option string))) :=
  obj ← r; mret ((λ name, obj !! name) <$> names).

(** ** Vocabulary of the further properties *)

(** the flag that a call with the spellings [name_or_flags] appends *)
Definition flag_of_call (name_or_flags : list string)
    (completer : option (string → list string)) (label : option string)
  : OptionalKomandArg.t :=
  {| OptionalKomandArg.base :=
       KomandArg.init
         (match label with
          | Some l => l
          | None => strip "--" (default EmptyString (head name_or_flags))
          end) completer None;
     OptionalKomandArg.flags := name_or_flags |}.

(** the positional that a call with the one name [name] appends *)
Definition positional_of_call (name : string)
    (completer : option (string → list string)) (label : option string)
  : PositionalKomandArg.t :=
  {| PositionalKomandArg.base := KomandArg.init (default name label) completer None;
     PositionalKomandArg.name := name |}.

(** the token lists that [add_argument] accepts on [self] *)
Definition acceptable (self : KomandParser) (name_or_flags : list string) : Prop :=
  Forall (λ n, n ≠ EmptyString) name_or_flags
  ∧ Forall (λ n, n ∉ all_names_and_flags self) name_or_flags
  ∧ ((name_or_flags ≠ [] ∧ Forall (λ n, startswith n "-" = true) name_or_flags)
     ∨ (∃ name, name_or_flags = [name] ∧ startswith name "-" = false)).

(** the names of the positionals, in the order of declaration *)
Definition positional_names (self : KomandParser) : list string :=
  PositionalKomandArg.name <$> positionals self.

(** the error of [find_flag_with_name] on a token that is no flag
    spelling *)
Definition lookup_error (token : string) : exn :=
  match str_first token with
  | Raise _ => IndexError
  | Ok c => if bool_decide (c = dash) then UnknownFlagName token
            else UnexpectedFlagName token
  end.

(** the shape of a parser built by calls *)
Record shape (self : KomandParser) : Prop := mk_shape {
  shape_wf : wf self;
  shape_positionals :
    filter (λ n, startswith n "-" = false) (all_names_and_flags self)
      = positional_names self;
  shape_flags :
    Forall (λ f, OptionalKomandArg.flags f ≠ []
                 ∧ Forall (λ n, startswith n "-" = true)
                     (OptionalKomandArg.flags f)) (flags self)
}.

Definition flag_label (f : OptionalKomandArg.t) : string :=
  KomandArg.label (OptionalKomandArg.base f).

Definition positional_label (p : PositionalKomandArg.t) : string :=
  KomandArg.label (PositionalKomandArg.base p).

(** the tokens of a list of (flag name, value) pairs *)
Definition flatten (pairs : list (string * string)) : list string :=
  pairs ≫= λ '(flag_name, flag_param), [flag_name; flag_param].

(** the result before any token is read: every flag label holds [None] *)
Definition absent_flags (self : KomandParser) : ParsedKomandArgs :=
  init_flags_loop (flags self) ∅.

(** the positionals [ps] bound, in order, to [tokens] *)
Definition bind_positionals (ps : list PositionalKomandArg.t)
    (tokens : list string) (obj : ParsedKomandArgs) : ParsedKomandArgs :=
  foldl (λ o '(p, component), setattr o (positional_label p) (Some component))
    obj (zip ps tokens).

(** the flags [fs] set, in order, to [values] *)
Definition bind_flags (fs : list OptionalKomandArg.t) (values : list string)
    (obj : ParsedKomandArgs) : ParsedKomandArgs :=
  foldl (λ o '(f, flag_param), setattr o (flag_label f) (Some flag_param))
    obj (zip fs values).

(** what holds of the attributes of a parse result: every flag label
    is set; every attribute set is a declared label; every value is
    [None] or a token of the line *)
Definition attributes_ok (self : KomandParser) (components : list string)
    (obj : ParsedKomandArgs) : Prop :=
  (∀ f, f ∈ flags self → is_Some (obj !! flag_label f))
  ∧ (∀ name value, obj !! name = Some value →
       (name ∈ flag_label <$> flags self
        ∨ name ∈ positional_label <$> positionals self)
       ∧ (∀ s, value = Some s → s ∈ components)).

(** a line made of whitespace only (or of nothing) *)
Definition blank (code : string) : Prop :=
  Forall (λ c, ascii_in c shlex.whitespace = true) (list_ascii_of_string code).

(** the string of [n] dashes *)
Fixpoint dashes (n : nat) : string :=
  match n with
  | 0 => EmptyString
  | S n' => String dash (dashes n')
  end.

(** * Verification *)

(** ** Methods that only read [self] *)

Create HintDb readonly discriminated.

Lemma readonly_ret {A} (a : A) : readonly (mret a).
Proof. by intros self. Qed.

Lemma readonly_raise {A} (e : exn) : readonly (@raise A e).
Proof. by intros self. Qed.

Lemma readonly_lift {A} (r : result A) : readonly (lift r).
Proof. by intros self. Qed.

Lemma readonly_get_self : readonly get_self.
Proof. by intros self. Qed.

Lemma readonly_bind {A B} (m : M A) (f : A → M B) :
  readonly m → (∀ a, readonly (f a)) → readonly (m ≫= f).
Proof.
  intros Hm Hf self. unfold mbind, M_bind.
  specialize (Hm self). destruct (m self) as [[a|e] self']; simpl in *; subst.
  - apply Hf.
  - done.
Qed.

#[global] Hint Resolve readonly_ret readonly_raise readonly_lift
  readonly_get_self : readonly.

Ltac readonly_step :=
  match goal with
  | |- readonly (_ ≫= _) => apply readonly_bind; [| intros ?]
  | |- readonly (if ?b then _ else _) => destruct b
  | |- readonly (match ?x with _ => _ end) => destruct x
  | |- readonly _ => solve [auto with readonly]
  end.

Ltac readonly_auto := repeat readonly_step.

(** The value of a bind whose first part only reads. *)
Lemma bind_readonly {A B} (m : M A) (f : A → M B) self :
  readonly m →
  (m ≫= f) self =
    match (m self).1 with
    | Ok a => f a self
    | Raise e => (Raise e, self)
    end.
Proof.
  intros Hm. unfold mbind, M_bind. specialize (Hm self).
  destruct (m self) as [[a|e] self']; simpl in *; by subst.
Qed.

Lemma readonly_check_not_defined rest : readonly (check_not_defined rest).
Proof. induction rest as [|x rest IH]; simpl; readonly_auto. Qed.

Lemma readonly_do_complete_flag_name word : readonly (do_complete_flag_name word).
Proof. unfold do_complete_flag_name. readonly_auto. Qed.

Lemma readonly_try_complete_flag_value flag_name word :
  readonly (try_complete_flag_value flag_name word).
Proof. unfold try_complete_flag_value. readonly_auto. Qed.

#[global] Hint Resolve readonly_check_not_defined readonly_do_complete_flag_name
  readonly_try_complete_flag_value : readonly.

Lemma readonly_do_complete_loop splitted_code last_word last_word_rank ks :
  readonly (do_complete_loop splitted_code last_word last_word_rank ks).
Proof. induction ks as [|k ks IH]; simpl; readonly_auto. Qed.

#[global] Hint Resolve readonly_do_complete_loop : readonly.

Lemma readonly_do_complete_value splitted_code last_word last_word_rank :
  readonly (do_complete_value splitted_code last_word last_word_rank).
Proof. unfold do_complete_value. readonly_auto. Qed.

#[global] Hint Resolve readonly_do_complete_value : readonly.

Lemma readonly_do_complete code : readonly (do_complete code).
Proof. unfold do_complete. readonly_auto. Qed.

Lemma readonly_find_flag_with_name flag_name :
  readonly (find_flag_with_name flag_name).
Proof. unfold find_flag_with_name. readonly_auto. Qed.

#[global] Hint Resolve readonly_find_flag_with_name : readonly.

Lemma readonly_positional_loop rest positional_idx arg_obj :
  readonly (positional_loop rest positional_idx arg_obj).
Proof.
  revert positional_idx arg_obj.
  induction rest as [|component rest IH]; intros; simpl; readonly_auto.
Qed.

Lemma readonly_flag_loop components ks arg_obj :
  readonly (flag_loop components ks arg_obj).
Proof.
  revert arg_obj. induction ks as [|k ks IH]; intros; simpl; readonly_auto.
Qed.

#[global] Hint Resolve readonly_positional_loop readonly_flag_loop : readonly.

Lemma readonly_parse_components components : readonly (parse_components components).
Proof. unfold parse_components. readonly_auto. Qed.

#[global] Hint Resolve readonly_parse_components : readonly.

Lemma readonly_parse code : readonly (parse code).
Proof. unfold parse. readonly_auto. Qed.

(** C9: neither [parse] nor [do_complete] changes the parser object:
    whatever the line and whether the call returns or raises, [self]
    (its positionals, its flags and its list of all names and flags) is
    after the call what it was before. *)
Theorem parse_and_complete_leave_registry (self : KomandParser) (code : string) :
  (parse code self).2 = self ∧ (do_complete code self).2 = self.
Proof. split; [apply readonly_parse | apply readonly_do_complete]. Qed.

(** ** Registration *)

(** The two ways the source tests for a leading dash agree on a
    token that is not empty. *)
Lemma startswith_dash s :
  startswith s "-" =
    match str_first s with
    | Ok c => bool_decide (c = dash)
    | Raise _ => false
    end.
Proof.
  destruct s as [|c w]; [done|]. unfold startswith.
  change (String.prefix "-" (String c w))
    with (if Ascii.ascii_dec "-" c then String.prefix EmptyString w else false).
  simpl str_first. cbv beta iota.
  destruct (Ascii.ascii_dec "-" c) as [<-|Hne].
  - rewrite bool_decide_eq_true_2 by done. by destruct w.
  - by rewrite bool_decide_eq_false_2 by (intros ->; by apply Hne).
Qed.

Lemma check_not_empty_Ok k rest :
  check_not_empty k rest = Ok () → Forall (λ n, n ≠ EmptyString) rest.
Proof.
  revert k. induction rest as [|each_arg rest IH]; intros k; simpl; [done|].
  destruct each_arg as [|c w]; simpl; [done|].
  intros H. constructor; [done|]. by apply (IH (S k)).
Qed.

Lemma check_not_defined_run rest self :
  (check_not_defined rest self = (Ok (), self)
   ∧ Forall (λ n, n ∉ all_names_and_flags self) rest)
  ∨ (∃ x, x ∈ rest ∧ x ∈ all_names_and_flags self
          ∧ check_not_defined rest self = (Raise (AlreadyDefined x), self)).
Proof.
  induction rest as [|each rest IH]; simpl.
  - left. by split.
  - unfold mbind, M_bind, get_self, raise, str_in.
    destruct (decide (each ∈ all_names_and_flags self)) as [Hin|Hout].
    + right. exists each. rewrite bool_decide_eq_true_2 by done.
      split; [by left|]. by split.
    + rewrite bool_decide_eq_false_2 by done.
      destruct IH as [[-> Hall]|(x & Hx & Hxin & ->)].
      * left. split; [done|]. by constructor.
      * right. exists x. split; [by right|]. by split.
Qed.

Lemma check_flags_Ok flags rest :
  OptionalKomandArg.check_flags flags rest = Ok () →
  Forall (λ n, startswith n "-" = true) rest.
Proof.
  induction rest as [|each rest IH]; simpl; [done|].
  destruct each as [|c w]; simpl; [done|].
  unfold mbind, result_bind.
  destruct (bool_decide (c = dash)) eqn:Hc; simpl; [|done].
  apply bool_decide_eq_true_1 in Hc. subst c.
  intros H. constructor; [|by apply IH]. by destruct w.
Qed.

(** [add_argument], its binds unfolded. *)
Lemma add_argument_run name_or_flags completer label self :
  add_argument name_or_flags completer label self =
    match check_not_empty 0 name_or_flags with
    | Raise e => (Raise e, self)
    | Ok _ =>
    match (check_not_defined name_or_flags self).1 with
    | Raise e => (Raise e, self)
    | Ok _ =>
    match name_or_flags with
    | [] => (Raise IndexError, self)
    | first_name_or_flag :: _ =>
    match str_first first_name_or_flag with
    | Raise e => (Raise e, self)
    | Ok c =>
        if bool_decide (c = dash) then
          match OptionalKomandArg.init name_or_flags completer label None with
          | Raise e => (Raise e, self)
          | Ok arg =>
              (Ok (), {| description := description self;
                         all_names_and_flags :=
                           all_names_and_flags self ++ name_or_flags;
                         flags := flags self ++ [arg];
                         positionals := positionals self |})
          end
        else if 1 <? length name_or_flags
        then (Raise (OnlyOneName name_or_flags), self)
        else
          match PositionalKomandArg.init first_name_or_flag completer label None with
          | Raise e => (Raise e, self)
          | Ok arg =>
              (Ok (), {| description := description self;
                         all_names_and_flags :=
                           all_names_and_flags self ++ [first_name_or_flag];
                         flags := flags self;
                         positionals := positionals self ++ [arg] |})
          end
    end end end end.
Proof.
  unfold add_argument.
  rewrite bind_readonly by auto with readonly. simpl.
  destruct (check_not_empty 0 name_or_flags); [|done].
  rewrite bind_readonly by auto with readonly.
  destruct (check_not_defined name_or_flags self).1; [|done].
  rewrite bind_readonly by auto with readonly. simpl.
  destruct name_or_flags as [|first_name_or_flag others]; [done|].
  unfold index. simpl.
  rewrite bind_readonly by auto with readonly. simpl.
  destruct (str_first first_name_or_flag) as [c|]; [|done].
  unfold mbind, M_bind, lift, raise.
  destruct (bool_decide (c = dash)).
  - by destruct (OptionalKomandArg.init _ _ _ _).
  - destruct others; simpl; [|done].
    by destruct (PositionalKomandArg.init _ _ _ _).
Qed.

(** What one call does: it raises and leaves [self] as it is, or it
    appends a flag with all its spellings, or a positional with its
    name. *)
Lemma add_argument_cases name_or_flags completer label self :
  (∃ e, add_argument name_or_flags completer label self = (Raise e, self))
  ∨ (∃ arg,
       Forall (λ n, n ≠ EmptyString) name_or_flags
       ∧ Forall (λ n, n ∉ all_names_and_flags self) name_or_flags
       ∧ Forall (λ n, startswith n "-" = true) name_or_flags
       ∧ OptionalKomandArg.flags arg = name_or_flags
       ∧ add_argument name_or_flags completer label self =
           (Ok (), {| description := description self;
                      all_names_and_flags :=
                        all_names_and_flags self ++ name_or_flags;
                      flags := flags self ++ [arg];
                      positionals := positionals self |}))
  ∨ (∃ name arg,
       name_or_flags = [name] ∧ name ≠ EmptyString
       ∧ (name ∉ all_names_and_flags self)
       ∧ startswith name "-" = false
       ∧ add_argument name_or_flags completer label self =
           (Ok (), {| description := description self;
                      all_names_and_flags := all_names_and_flags self ++ [name];
                      flags := flags self;
                      positionals := positionals self ++ [arg] |})).
Proof.
  rewrite add_argument_run.
  destruct (check_not_empty 0 name_or_flags) as [[]|e] eqn:Hne; [|left; eauto].
  apply check_not_empty_Ok in Hne.
  destruct (check_not_defined_run name_or_flags self)
    as [[Hnd Hfresh]|(x & _ & _ & Hnd)]; rewrite Hnd; simpl; [|left; eauto].
  destruct name_or_flags as [|first_name_or_flag others]; [left; eauto|].
  destruct first_name_or_flag as [|c w]; [by inversion Hne|]. simpl.
  destruct (bool_decide (c = dash)) eqn:Hc.
  - apply bool_decide_eq_true_1 in Hc. subst c.
    unfold OptionalKomandArg.init, mbind, result_bind.
    destruct (match label with
              | Some l => Ok l
              | None => _
              end) as [label'|e]; [|left; eauto].
    destruct (OptionalKomandArg.check_flags _ _) as [[]|e] eqn:Hcf;
      [|left; eauto].
    apply check_flags_Ok in Hcf.
    right. left. eexists. repeat split; try done.
  - apply bool_decide_eq_false_1 in Hc.
    destruct others as [|other others]; simpl; [|left; eauto].
    unfold PositionalKomandArg.init, mbind, result_bind. simpl.
    rewrite bool_decide_eq_false_2 by done.
    right. right. eexists _, _. repeat split; try done.
    + by inversion Hfresh.
    + rewrite startswith_dash. simpl. by apply bool_decide_eq_false_2.
Qed.

(** C10: [add_argument] is atomic.  Whenever it raises (empty string,
    name already defined, heterogenous flags, several names for a
    positional, or no name at all), the parser object is exactly what it
    was before the call: nothing was appended to the positionals, to the
    flags or to the list of all names and flags. *)
Theorem add_argument_atomic (name_or_flags : list string)
    (completer : option (string → list string)) (label : option string)
    (self : KomandParser) (e : exn) :
  (add_argument name_or_flags completer label self).1 = Raise e →
  (add_argument name_or_flags completer label self).2 = self.
Proof.
  destruct (add_argument_cases name_or_flags completer label self)
    as [[e' ->]|[(arg & _ & _ & _ & _ & ->)|(name & arg & _ & _ & _ & _ & ->)]];
    simpl; done.
Qed.

Lemma add_argument_atomic_witness :
  (add_argument ["--x"; "y"] None None parser_flag_force).1
    = Raise (HeterogenousFlags ["--x"; "y"] "y")
  ∧ (add_argument ["--x"; "y"] None None parser_flag_force).2
    = parser_flag_force.
Proof.
  split; [reflexivity|].
  apply (add_argument_atomic ["--x"; "y"] None None parser_flag_force
           (HeterogenousFlags ["--x"; "y"] "y")).
  reflexivity.
Defined.

(** *** Parsers built by a sequence of calls *)

Lemma filter_all {A} (P : A → Prop) `{∀ x, Decision (P x)} (l : list A) :
  Forall P l → filter P l = l.
Proof.
  induction 1 as [|x l Hx Hl IH]; [done|].
  rewrite filter_cons_True by done. by f_equal.
Qed.

Lemma wf_init description : wf (KomandParser_init description).
Proof. by split; [constructor|]. Qed.

Lemma wf_step self c : wf self → wf (step self c).
Proof.
  intros [Hne Hsp]. unfold step, run_call.
  destruct (add_argument_cases (call_name_or_flags c) (call_completer c)
              (call_label c) self)
    as [[e ->]|[(arg & Hn & _ & Hd & Hfl & ->)
               |(name & arg & -> & Hn & _ & Hd & ->)]]; simpl.
  - by split.
  - split; simpl.
    + by apply Forall_app.
    + unfold spellings. simpl.
      rewrite filter_app, fmap_app, join_app, Hsp. simpl.
      rewrite Hfl, app_nil_r. f_equal. by apply filter_all.
  - split; simpl.
    + apply Forall_app. split; [done|]. by constructor.
    + rewrite filter_app, Hsp.
      rewrite filter_cons_False by (by rewrite Hd).
      by rewrite filter_nil, app_nil_r.
Qed.

Lemma wf_foldl calls self : wf self → wf (foldl step self calls).
Proof.
  revert self. induction calls as [|c calls IH]; intros self Hwf; [done|].
  simpl. apply IH. by apply wf_step.
Qed.

Lemma wf_build calls : wf (build calls).
Proof. apply wf_foldl, wf_init. Qed.

(** A call that names something an earlier call registered raises. *)
Lemma add_argument_rejects_defined_name name_or_flags completer label self x :
  check_not_empty 0 name_or_flags = Ok () →
  x ∈ name_or_flags → x ∈ all_names_and_flags self →
  ∃ y, y ∈ name_or_flags ∧ y ∈ all_names_and_flags self
       ∧ add_argument name_or_flags completer label self
           = (Raise (AlreadyDefined y), self).
Proof.
  intros Hne Hx Hin. rewrite add_argument_run, Hne.
  destruct (check_not_defined_run name_or_flags self)
    as [[_ Hfresh]|(y & Hy & Hyin & ->)].
  - rewrite Forall_forall in Hfresh. by destruct (Hfresh x).
  - by exists y.
Qed.

(** Names of different calls never meet in the list of all names: it
    has no duplicate when no call repeats a name within itself. *)
Lemma NoDup_all_names_foldl calls self :
  NoDup (all_names_and_flags self) →
  Forall (λ c, NoDup (call_name_or_flags c)) calls →
  NoDup (all_names_and_flags (foldl step self calls)).
Proof.
  revert self. induction calls as [|c calls IH]; intros self Hnd Hcalls; [done|].
  apply Forall_cons in Hcalls as [Hc Hcalls].
  simpl. apply IH; [|done]. unfold step, run_call.
  destruct (add_argument_cases (call_name_or_flags c) (call_completer c)
              (call_label c) self)
    as [[e ->]|[(arg & _ & Hfresh & _ & _ & ->)
               |(name & arg & Hname & _ & Hfresh & _ & ->)]]; simpl; [done|..].
  - apply NoDup_app. split; [done|]. split; [|done].
    intros x Hx Hx'. rewrite Forall_forall in Hfresh. by apply (Hfresh x).
  - apply NoDup_app. split; [done|]. split; [|apply NoDup_singleton].
    by intros x Hx ->%list_elem_of_singleton.
Qed.

Lemma NoDup_all_names_build calls :
  Forall (λ c, NoDup (call_name_or_flags c)) calls →
  NoDup (all_names_and_flags (build calls)).
Proof. apply NoDup_all_names_foldl. simpl. apply NoDup_nil_2. Qed.

(** ** The backward scan of [do_complete] *)

Lemma try_complete_flag_value_run flag_name word self :
  try_complete_flag_value flag_name word self =
    (Ok (if str_in flag_name (all_names_and_flags self)
         then try_complete_flag_value_loop flag_name word (flags self)
         else None), self).
Proof.
  unfold try_complete_flag_value, mbind, M_bind, get_self.
  by destruct (str_in flag_name (all_names_and_flags self)).
Qed.

Lemma find_flag_with_name_run flag_name self :
  str_first flag_name = Ok dash →
  find_flag_with_name flag_name self =
    (if str_in flag_name (all_names_and_flags self)
     then find_flag_with_name_loop flag_name (flags self)
     else Raise (UnknownFlagName flag_name), self).
Proof.
  intros Hc. unfold find_flag_with_name, mbind, M_bind, get_self, lift, raise.
  rewrite Hc. rewrite bool_decide_eq_true_2 by done. simpl.
  by destruct (str_in flag_name (all_names_and_flags self)).
Qed.

Lemma try_loop_of_find_loop flag_name word rest :
  try_complete_flag_value_loop flag_name word rest =
    match find_flag_with_name_loop flag_name rest with
    | Ok flag => Some (KomandArg.do_complete (OptionalKomandArg.base flag) word)
    | Raise _ => None
    end.
Proof.
  induction rest as [|each_flag rest IH]; simpl; [done|].
  by destruct (str_in flag_name (OptionalKomandArg.flags each_flag)).
Qed.

Lemma try_complete_resolved self token word flag :
  str_first token = Ok dash → resolves self token flag →
  try_complete_flag_value token word self =
    (Ok (Some (KomandArg.do_complete (OptionalKomandArg.base flag) word)), self).
Proof.
  unfold resolves. intros Hc Hr.
  rewrite find_flag_with_name_run in Hr by done.
  rewrite try_complete_flag_value_run, try_loop_of_find_loop.
  destruct (str_in token (all_names_and_flags self)); simpl in Hr; [|done].
  by rewrite Hr.
Qed.

Lemma try_complete_unresolved self token word :
  str_first token = Ok dash → (∀ flag, ¬ resolves self token flag) →
  try_complete_flag_value token word self = (Ok None, self).
Proof.
  unfold resolves. intros Hc Hr.
  rewrite try_complete_flag_value_run, try_loop_of_find_loop.
  destruct (str_in token (all_names_and_flags self)) eqn:Hin; [|done].
  destruct (find_flag_with_name_loop token (flags self)) as [flag|] eqn:Hf; [|done].
  exfalso. apply (Hr flag).
  rewrite find_flag_with_name_run by done. by rewrite Hin.
Qed.

Lemma do_complete_loop_hit self splitted_code last_word n k ks token flag :
  splitted_code !! (n - k) = Some token →
  str_first token = Ok dash → resolves self token flag →
  do_complete_loop splitted_code last_word n (k :: ks) self =
    (Ok (Some (KomandArg.do_complete (OptionalKomandArg.base flag) last_word)), self).
Proof.
  intros Ht Hc Hr. simpl. unfold index. rewrite Ht.
  unfold mbind at 1, M_bind at 1, lift at 1.
  unfold mbind at 1, M_bind at 1, lift at 1. rewrite Hc.
  rewrite bool_decide_eq_true_2 by done.
  unfold mbind, M_bind. by rewrite (try_complete_resolved _ _ _ flag).
Qed.

Lemma do_complete_loop_skip self splitted_code last_word n ks ks' :
  (∀ k, k ∈ ks → ∃ token, splitted_code !! (n - k) = Some token
                          ∧ no_answer self token) →
  do_complete_loop splitted_code last_word n (ks ++ ks') self =
    do_complete_loop splitted_code last_word n ks' self.
Proof.
  induction ks as [|k ks IH]; intros Hks; [done|].
  destruct (Hks k) as (token & Ht & c & Hc & Hno); [by left|].
  simpl. unfold index. rewrite Ht.
  unfold mbind at 1, M_bind at 1, lift at 1.
  unfold mbind at 1, M_bind at 1, lift at 1. rewrite Hc.
  destruct (bool_decide (c = dash)) eqn:Hd.
  - apply bool_decide_eq_true_1 in Hd. subst c.
    unfold mbind at 1, M_bind at 1.
    rewrite try_complete_unresolved by auto.
    apply IH. intros k' Hk'. apply Hks. by right.
  - apply IH. intros k' Hk'. apply Hks. by right.
Qed.

Lemma py_range_0_1 n : py_range 0 n 1 = seq 0 n.
Proof.
  unfold py_range. replace (n - 0 + (1 - 1)) with n by lia.
  rewrite Nat.div_1_r. induction (seq 0 n) as [|x l IH]; simpl; [done|].
  f_equal; [lia|done].
Qed.

(** The first token, scanning from the last one down to the second,
    that resolves to a flag decides the completion. *)
Lemma do_complete_value_first_answer self splitted_code last_word i token flag :
  1 ≤ i < length splitted_code →
  splitted_code !! i = Some token →
  str_first token = Ok dash → resolves self token flag →
  (∀ j t, i < j → splitted_code !! j = Some t → no_answer self t) →
  do_complete_value splitted_code last_word (length splitted_code - 1) self =
    (Ok (KomandArg.do_complete (OptionalKomandArg.base flag) last_word), self).
Proof.
  intros Hi Ht Hc Hr Hlater.
  set (n := length splitted_code - 1).
  unfold do_complete_value. rewrite py_range_0_1.
  assert (seq 0 n = seq 0 (n - i) ++ (n - i) :: seq (S (n - i)) (i - 1))%list
    as ->.
  { transitivity (seq 0 ((n - i) + S (i - 1))); [f_equal; lia|].
    by rewrite seq_app. }
  unfold mbind, M_bind.
  rewrite do_complete_loop_skip.
  - rewrite (do_complete_loop_hit _ _ _ _ _ _ token flag); try done.
    by replace (n - (n - i)) with i by lia.
  - intros k Hk. apply elem_of_seq in Hk.
    destruct (lookup_lt_is_Some_2 splitted_code (n - k)) as [t Hk']; [lia|].
    exists t. split; [done|]. apply (Hlater (n - k)); [lia|done].
Qed.

(** When no scanned token resolves, the last token is completed as the
    positional of its rank. *)
Lemma do_complete_value_no_answer self (splitted_code : list string) last_word :
  (∀ (j : nat) t, (1 ≤ j)%nat → splitted_code !! j = Some t → no_answer self t) →
  do_complete_value splitted_code last_word (length splitted_code - 1) self =
    (Ok (match positionals self !! (length splitted_code - 1) with
         | Some guessed_positional =>
             KomandArg.do_complete
               (PositionalKomandArg.base guessed_positional) last_word
         | None => []
         end), self).
Proof.
  intros Hall. set (n := length splitted_code - 1).
  unfold do_complete_value. rewrite py_range_0_1.
  rewrite <- (app_nil_r (seq 0 n)).
  unfold mbind, M_bind. rewrite do_complete_loop_skip.
  - simpl. unfold get_self, lift, index.
    destruct (length (positionals self) <=? n)%nat eqn:Hle.
    + apply Nat.leb_le in Hle. by rewrite lookup_ge_None_2.
    + apply Nat.leb_gt in Hle.
      destruct (lookup_lt_is_Some_2 (positionals self) n) as [p Hp]; [done|].
      by rewrite Hp.
  - intros k Hk. apply elem_of_seq in Hk.
    destruct (lookup_lt_is_Some_2 splitted_code (n - k)) as [t Hk']; [lia|].
    exists t. split; [done|]. apply (Hall (n - k)); [lia|done].
Qed.

(** [do_complete] goes on to the scan when the flag-name case of line
    231 does not apply. *)
Lemma do_complete_enters_value self code splitted_code last_word c :
  shlex.split code = Ok splitted_code →
  last splitted_code = Some last_word →
  str_first last_word = Ok c →
  (c = dash → str_last code = Ok space) →
  do_complete code self =
    do_complete_value splitted_code last_word (length splitted_code - 1) self.
Proof.
  intros Hs Hl Hc Hsp. unfold do_complete, index_last, mbind, M_bind, lift.
  rewrite Hs. cbv beta iota. rewrite Hl. cbv beta iota. rewrite Hc.
  cbv beta iota.
  destruct (bool_decide (c = dash)) eqn:Hd; [|done].
  apply bool_decide_eq_true_1 in Hd. rewrite (Hsp Hd). cbv beta iota.
  by rewrite bool_decide_eq_true_2.
Qed.

(** settles [no_answer] on a concrete token *)
Ltac no_answer_by_computation :=
  eexists; split; [reflexivity|];
  first [ discriminate
        | intros _ flag Hflag; vm_compute in Hflag; discriminate ].

(** C1 (as the code has it): in the flag-value context, that is when
    the flag-name case of line 231 does not apply, the scan starts at
    the last token itself and goes backward; the first scanned token at
    a position from the last down to the second that starts with a dash
    and resolves to a registered flag wins: [do_complete] returns what
    that flag's [do_complete] gives for the last token (the empty list
    included), whatever stands before it. *)
Theorem do_complete_first_resolving_flag_wins
    (self : KomandParser) (code : string) (splitted_code : list string)
    (last_word token : string) (i : nat) (flag : OptionalKomandArg.t) :
  shlex.split code = Ok splitted_code →
  last splitted_code = Some last_word →
  (str_first last_word = Ok dash → str_last code = Ok space) →
  1 ≤ i < length splitted_code →
  splitted_code !! i = Some token →
  str_first token = Ok dash →
  resolves self token flag →
  (∀ (j : nat) t, i < j → splitted_code !! j = Some t → no_answer self t) →
  do_complete code self =
    (Ok (KomandArg.do_complete (OptionalKomandArg.base flag) last_word), self).
Proof.
  intros Hs Hl Hsp Hi Ht Hc Hr Hlater.
  assert (∃ c, str_first last_word = Ok c) as [c Hlc].
  { rewrite last_lookup in Hl.
    destruct (decide (i = pred (length splitted_code))) as [->|Hne].
    - exists dash. congruence.
    - destruct (Hlater (pred (length splitted_code)) last_word) as (c & Hc' & _);
        [lia|done|]. by exists c. }
  rewrite (do_complete_enters_value self code splitted_code last_word c);
    try done.
  - by apply (do_complete_value_first_answer self splitted_code last_word i token).
  - intros ->. auto.
Qed.

Lemma do_complete_first_resolving_flag_wins_witness :
  do_complete "POS1 --flag x --nope Tru" parser_flag_force =
    (Ok ["True"; "False"], parser_flag_force).
Proof.
  apply (do_complete_first_resolving_flag_wins parser_flag_force
           "POS1 --flag x --nope Tru" ["POS1"; "--flag"; "x"; "--nope"; "Tru"]
           "Tru" "--flag" 1 arg_flag).
  - reflexivity.
  - reflexivity.
  - discriminate.
  - simpl. lia.
  - reflexivity.
  - reflexivity.
  - reflexivity.
  - intros j t Hj Hjt.
    destruct j as [|[|[|[|[|j]]]]]; simpl in Hjt; try lia;
      inversion Hjt; subst t; no_answer_by_computation.
Defined.

(** C1, counterexample to the claim as stated: on ["p --f --g "] the
    token before the last is [--f], whose completer gives [["F"]]; the
    code asks [--g], the last token. *)
Lemma scan_from_preceding_token_counterexample :
  (do_complete "p --f --g " parser_f_g).1 = Ok ["G"]
  ∧ ¬ scan_from_preceding_token_as_stated.
Proof.
  split; [reflexivity|]. intros claim.
  assert ((do_complete "p --f --g " parser_f_g).1 = Ok ["F"]) as H;
    [|vm_compute in H; discriminate].
  apply (claim parser_f_g "p --f --g " ["p"; "--f"; "--g"] "--g" "--f" 1 arg_f).
  - reflexivity.
  - reflexivity.
  - reflexivity.
  - simpl. lia.
  - reflexivity.
  - reflexivity.
  - reflexivity.
  - simpl. intros j t Hj. lia.
Qed.

(** A flag that is the first token is never asked (the scan stops at
    the second token). *)
Example do_complete_flag_at_first_token :
  (do_complete "--f v" (build [mkCall ["--f"] (const_completer ["F"]) None])).1
    = Ok [].
Proof. reflexivity. Qed.

(** C3 (as the code has it): a scanned dash token whose lookup fails
    gives no answer and the scan goes on further back, down to the
    positional completion when nothing resolves; a scanned dash token
    that resolves to a flag without completer ends the scan with the
    empty list. *)
Theorem scan_skips_unresolved_stops_at_resolved
    (self : KomandParser) (code : string) (splitted_code : list string)
    (last_word : string) :
  shlex.split code = Ok splitted_code →
  last splitted_code = Some last_word →
  last_word ≠ EmptyString →
  (str_first last_word = Ok dash → str_last code = Ok space) →
  ((∀ (j : nat) t, (1 ≤ j)%nat → splitted_code !! j = Some t → no_answer self t) →
   do_complete code self =
     (Ok (match positionals self !! (length splitted_code - 1) with
          | Some guessed_positional =>
              KomandArg.do_complete
                (PositionalKomandArg.base guessed_positional) last_word
          | None => []
          end), self))
  ∧ (∀ (i : nat) token flag,
       1 ≤ i < length splitted_code →
       splitted_code !! i = Some token →
       str_first token = Ok dash →
       resolves self token flag →
       KomandArg.completer (OptionalKomandArg.base flag) = None →
       (∀ (j : nat) t, i < j → splitted_code !! j = Some t → no_answer self t) →
       do_complete code self = (Ok [], self)).
Proof.
  intros Hs Hl Hne Hsp.
  assert (∃ c, str_first last_word = Ok c) as [c Hlc].
  { destruct last_word as [|c w]; [done|]. by exists c. }
  rewrite (do_complete_enters_value self code splitted_code last_word c);
    try done; [|intros ->; auto].
  split.
  - apply do_complete_value_no_answer.
  - intros i token flag Hi Ht Hc Hr Hnone Hlater.
    rewrite (do_complete_value_first_answer self splitted_code last_word
               i token flag); try done.
    unfold KomandArg.do_complete. by rewrite Hnone.
Qed.

Lemma scan_skips_unresolved_stops_at_resolved_witness :
  do_complete "p --a x --b --nope y" parser_a_b = (Ok [], parser_a_b)
  ∧ do_complete "p --nope q" parser_a_b = (Ok ["alpha"; "beta"], parser_a_b).
Proof.
  split.
  - apply (proj2 (scan_skips_unresolved_stops_at_resolved parser_a_b
             "p --a x --b --nope y" ["p"; "--a"; "x"; "--b"; "--nope"; "y"] "y"
             eq_refl eq_refl ltac:(discriminate) ltac:(discriminate))
           3 "--b" arg_b).
    + simpl. lia.
    + reflexivity.
    + reflexivity.
    + reflexivity.
    + reflexivity.
    + intros j t Hj Hjt.
      destruct j as [|[|[|[|[|[|j]]]]]]; simpl in Hjt; try lia;
        inversion Hjt; subst t; no_answer_by_computation.
  - apply (proj1 (scan_skips_unresolved_stops_at_resolved parser_a_b
             "p --nope q" ["p"; "--nope"; "q"] "q"
             eq_refl eq_refl ltac:(discriminate) ltac:(discriminate))).
    intros j t Hj Hjt.
    destruct j as [|[|[|j]]]; simpl in Hjt; try lia;
      inversion Hjt; subst t; no_answer_by_computation.
Defined.

(** C3, counterexample to the claim as stated: on ["p --a x --b y"]
    the flag [--b] has no completer; the code returns the empty list
    there and never reaches [--a]. *)
Lemma scan_skips_completerless_counterexample :
  (do_complete "p --a x --b y" parser_a_b).1 = Ok []
  ∧ ¬ scan_skips_completerless_as_stated.
Proof.
  split; [reflexivity|]. intros claim.
  assert ((do_complete "p --a x --b y" parser_a_b).1 = Ok ["A"]) as H;
    [|vm_compute in H; discriminate].
  apply (claim parser_a_b "p --a x --b y" ["p"; "--a"; "x"; "--b"; "y"]
           "y" "--a" 1 arg_a (λ _, ["A"])).
  - reflexivity.
  - reflexivity.
  - discriminate.
  - simpl. lia.
  - reflexivity.
  - reflexivity.
  - reflexivity.
  - reflexivity.
  - intros j t Hj Hjt.
    destruct j as [|[|[|[|[|j]]]]]; simpl in Hjt; try lia;
      inversion Hjt; subst t.
    + left. no_answer_by_computation.
    + right. exists arg_b. by repeat split.
    + left. no_answer_by_computation.
Qed.

(** ** The flag-name completion *)

(** the two tests of lines 179-181 together are the prefix test *)
Lemma take_eq_startswith word each_name :
  (if String.length each_name <? String.length word then false
   else String.eqb (str_take (String.length word) each_name) word)
  = startswith each_name word.
Proof.
  unfold startswith, str_take. revert each_name.
  induction word as [|a w IH]; intros [|b e]; try done.
  change (String.length (String b e) <? String.length (String a w))
    with (String.length e <? String.length w).
  change (String.prefix (String a w) (String b e))
    with (if Ascii.ascii_dec a b then String.prefix w e else false).
  change (substring 0 (String.length (String a w)) (String b e))
    with (String b (substring 0 (String.length w) e)).
  change (String.eqb (String b (substring 0 (String.length w) e)) (String a w))
    with (if Ascii.eqb b a
          then String.eqb (substring 0 (String.length w) e) w else false).
  rewrite <- IH.
  destruct (Ascii.ascii_dec a b) as [->|Hne].
  - rewrite Ascii.eqb_refl. by destruct (String.length e <? String.length w).
  - rewrite (proj2 (Ascii.eqb_neq b a)) by congruence.
    by destruct (String.length e <? String.length w).
Qed.

Lemma do_complete_flag_name_loop_filter word rest all_matches :
  Forall (λ n, n ≠ EmptyString) rest →
  do_complete_flag_name_loop word rest all_matches =
    Ok (all_matches ++
        filter (λ n, startswith n word = true)
          (filter (λ n, startswith n "-" = true) rest)).
Proof.
  intros Hne. revert all_matches.
  induction Hne as [|each_name rest Hn Hrest IH]; intros all_matches; simpl.
  - by rewrite app_nil_r.
  - pose proof (startswith_dash each_name) as Hd.
    pose proof (take_eq_startswith word each_name) as Hw.
    destruct (str_first each_name) as [c|] eqn:Hc; [|by destruct each_name].
    unfold mbind, result_bind.
    destruct (bool_decide (c = dash)); simpl negb; cbv iota.
    + rewrite (filter_cons_True (λ n, startswith n "-" = true)) by done.
      destruct (String.length each_name <? String.length word).
      * rewrite filter_cons_False by (by rewrite <- Hw). apply IH.
      * destruct (String.eqb _ word).
        -- rewrite filter_cons_True by done. rewrite IH.
           by rewrite <- app_assoc.
        -- rewrite filter_cons_False by (by rewrite <- Hw). apply IH.
    + rewrite filter_cons_False by (by rewrite Hd). apply IH.
Qed.

(** On a parser built by calls, the flag-name case returns the flag
    spellings that start with the last token, in declaration order. *)
Lemma do_complete_flag_name_spellings calls code splitted_code last_word e :
  shlex.split code = Ok splitted_code →
  last splitted_code = Some last_word →
  str_first last_word = Ok dash →
  str_last code = Ok e → e ≠ space →
  do_complete code (build calls) =
    (Ok (filter (λ n, startswith n last_word = true) (spellings (build calls))),
     build calls).
Proof.
  intros Hs Hl Hc He Hne.
  destruct (wf_build calls) as [Hnames Hsp].
  unfold do_complete, index_last, mbind, M_bind, lift.
  rewrite Hs. cbv beta iota. rewrite Hl. cbv beta iota. rewrite Hc.
  cbv beta iota. rewrite bool_decide_eq_true_2 by done. rewrite He.
  cbv beta iota. rewrite bool_decide_eq_false_2 by done.
  unfold do_complete_flag_name, mbind, M_bind, get_self, lift.
  change (negb false) with true. cbv beta iota.
  rewrite do_complete_flag_name_loop_filter by done. by rewrite Hsp.
Qed.

(** ... and without duplicates when no call repeated a name within
    itself. *)
Lemma do_complete_flag_name_NoDup calls word :
  Forall (λ c, NoDup (call_name_or_flags c)) calls →
  NoDup (filter (λ n, startswith n word = true) (spellings (build calls))).
Proof.
  intros Hcalls. apply NoDup_filter.
  rewrite <- (wf_spellings _ (wf_build calls)).
  by apply NoDup_filter, NoDup_all_names_build.
Qed.

(** ** Lines whose tokens are all non-empty *)

Lemma do_complete_loop_total self splitted_code last_word n ks :
  Forall (λ t, t ≠ EmptyString) splitted_code →
  Forall (λ k, n - k < length splitted_code) ks →
  ∃ r, do_complete_loop splitted_code last_word n ks self = (Ok r, self).
Proof.
  intros Htok Hks. induction Hks as [|k ks Hk Hks IH]; simpl; [by eexists|].
  destruct (lookup_lt_is_Some_2 splitted_code (n - k) Hk) as [t Ht].
  unfold index. rewrite Ht. unfold mbind at 1, M_bind at 1, lift at 1.
  assert (t ≠ EmptyString) as Hne.
  { rewrite Forall_forall in Htok. apply Htok.
    by apply list_elem_of_lookup_2 with (n - k). }
  destruct t as [|c w]; [done|].
  unfold mbind at 1, M_bind at 1, lift at 1. simpl str_first. cbv beta iota.
  destruct (bool_decide (c = dash)); [|done].
  unfold mbind, M_bind. rewrite try_complete_flag_value_run.
  destruct (if str_in _ _ then _ else _); [by eexists|done].
Qed.

(** [do_complete] returns a list whenever the line tokenizes to at
    least one token and no token is empty. *)
Lemma do_complete_total calls code splitted_code :
  shlex.split code = Ok splitted_code →
  splitted_code ≠ [] →
  Forall (λ t, t ≠ EmptyString) splitted_code →
  ∃ l, do_complete code (build calls) = (Ok l, build calls).
Proof.
  intros Hs Hnil Htok. set (self := build calls).
  destruct (last splitted_code) as [last_word|] eqn:Hl;
    [|by apply last_None in Hl].
  assert (last_word ≠ EmptyString) as Hne.
  { rewrite Forall_forall in Htok. apply Htok.
    rewrite last_lookup in Hl. by apply list_elem_of_lookup_2 in Hl. }
  destruct last_word as [|c w] eqn:Hw; [done|]. rewrite <- Hw in *.
  assert (str_first last_word = Ok c) as Hc by by subst.
  assert (∃ l, do_complete_value splitted_code last_word
                 (length splitted_code - 1) self = (Ok l, self)) as Hvalue.
  { unfold do_complete_value. rewrite py_range_0_1.
    destruct (do_complete_loop_total self splitted_code last_word
                (length splitted_code - 1) (seq 0 (length splitted_code - 1)))
      as [r Hr]; [done| |].
    { apply Forall_forall. intros k Hk%elem_of_seq.
      destruct splitted_code; [done|]. simpl. lia. }
    unfold mbind, M_bind. rewrite Hr. destruct r as [l|]; [by eexists|].
    unfold get_self, lift, index.
    destruct (length (positionals self) <=? length splitted_code - 1) eqn:Hle;
      [by eexists|].
    apply Nat.leb_gt in Hle.
    destruct (lookup_lt_is_Some_2 (positionals self) _ Hle) as [p ->].
    by eexists. }
  destruct (decide (c = dash)) as [->|Hnd].
  - assert (∃ e, str_last code = Ok e) as [e He].
    { destruct code as [|a code']; [by inversion Hs; subst|].
      clear. revert a. induction code' as [|b code' IH]; intros a; simpl;
        [by eexists|]. apply IH. }
    destruct (decide (e = space)) as [->|Hsp].
    + rewrite (do_complete_enters_value self code splitted_code last_word dash);
        done.
    + eexists.
      by apply (do_complete_flag_name_spellings calls code splitted_code
                  last_word e).
  - rewrite (do_complete_enters_value self code splitted_code last_word c);
      done.
Qed.

(** ** The parser and a dangling flag name *)

Lemma count_leading_le components : count_leading components ≤ length components.
Proof.
  induction components as [|c rest IH]; simpl; [done|].
  destruct (startswith c "-"); simpl; lia.
Qed.

Lemma positional_loop_idx self rest positional_idx arg_obj p arg_obj' self' :
  positional_loop rest positional_idx arg_obj self = (Ok (p, arg_obj'), self') →
  p = positional_idx + count_leading rest.
Proof.
  revert positional_idx arg_obj.
  induction rest as [|component rest IH]; intros positional_idx arg_obj; simpl.
  - unfold mret, M_ret. intros [= <- _ _]. lia.
  - unfold mbind, M_bind, get_self, raise, lift, mret, M_ret.
    destruct (startswith component "-").
    + destruct (positional_idx <? length (positionals self))%nat; [done|].
      intros [= <- _ _]. lia.
    + destruct (length (positionals self) <=? positional_idx)%nat; [done|].
      destruct (index (positionals self) positional_idx) as [q|]; [|done].
      intros H. apply IH in H. lia.
Qed.

Lemma positional_loop_app_dash self rest d positional_idx arg_obj :
  startswith d "-" = true →
  length (positionals self) ≤ positional_idx + count_leading rest →
  positional_loop (rest ++ [d]) positional_idx arg_obj self =
    positional_loop rest positional_idx arg_obj self.
Proof.
  intros Hd. revert positional_idx arg_obj.
  induction rest as [|component rest IH]; intros positional_idx arg_obj Hn; simpl.
  - unfold mbind, M_bind, get_self. rewrite Hd.
    simpl in Hn. by rewrite (proj2 (Nat.ltb_ge _ _)) by lia.
  - simpl in Hn. unfold mbind, M_bind, get_self, raise, lift.
    destruct (startswith component "-"); [done|].
    destruct (length (positionals self) <=? positional_idx)%nat; [done|].
    destruct (index (positionals self) positional_idx) as [q|]; [|done].
    apply IH. lia.
Qed.

Lemma flag_loop_ext self components components' ks arg_obj :
  (∀ k, k ∈ ks → components !! k = components' !! k
                 ∧ components !! (k + 1) = components' !! (k + 1)) →
  flag_loop components ks arg_obj self = flag_loop components' ks arg_obj self.
Proof.
  revert arg_obj. induction ks as [|k ks IH]; intros arg_obj Hks; [done|].
  destruct (Hks k) as [H0 H1]; [by left|].
  simpl. unfold index. rewrite H0, H1.
  unfold mbind, M_bind, lift.
  destruct (components' !! k) as [flag_name|]; [|done].
  destruct (components' !! (k + 1)) as [flag_param|]; [|done].
  destruct (find_flag_with_name flag_name self) as [[flag|e] self0] eqn:Hf; [|done].
  pose proof (readonly_find_flag_with_name flag_name self) as Hro.
  rewrite Hf in Hro. simpl in Hro. subst self0.
  apply IH. intros k' Hk'. apply Hks. by right.
Qed.

Lemma elem_of_py_range_2 start stop k :
  k ∈ py_range start stop 2 → start ≤ k < stop.
Proof.
  unfold py_range. intros (i & -> & Hi)%list_elem_of_fmap.
  apply elem_of_seq in Hi. change (2 - 1) with 1 in Hi.
  pose proof (Nat.Div0.mul_div_le (stop - start + 1) 2). lia.
Qed.

Lemma py_range_2_even start len :
  start ≤ len → Nat.Even (len - start) →
  py_range start len 2 = py_range start (len - 1) 2.
Proof.
  intros Hle [m Hm]. unfold py_range. do 2 f_equal. change (2 - 1) with 1.
  destruct m as [|m].
  - replace (len - start) with 0 by lia.
    replace (len - 1 - start) with 0 by lia. done.
  - replace (len - start + 1) with (1 + S m * 2) by lia.
    replace (len - 1 - start + 1) with (0 + S m * 2) by lia.
    by rewrite !Nat.div_add.
Qed.

(** *** The arity of the positionals *)

Lemma positional_loop_too_much self rest positional_idx arg_obj :
  positional_idx ≤ length (positionals self) →
  length (positionals self) < positional_idx + count_leading rest →
  positional_loop rest positional_idx arg_obj self =
    (Raise (TooMuchPositionals (length (positionals self))
              (length (positionals self) + 1)), self).
Proof.
  revert positional_idx arg_obj.
  induction rest as [|component rest IH]; intros positional_idx arg_obj Hle Hlt;
    simpl in *; [lia|].
  unfold mbind, M_bind, get_self, raise, lift.
  destruct (startswith component "-"); [lia|].
  destruct (length (positionals self) <=? positional_idx) eqn:Hfull.
  - apply Nat.leb_le in Hfull.
    by replace positional_idx with (length (positionals self)) by lia.
  - apply Nat.leb_gt in Hfull. unfold index.
    destruct (lookup_lt_is_Some_2 (positionals self) _ Hfull) as [p ->].
    apply IH; lia.
Qed.

Lemma positional_loop_not_enough self rest positional_idx arg_obj :
  count_leading rest < length rest →
  positional_idx + count_leading rest < length (positionals self) →
  positional_loop rest positional_idx arg_obj self =
    (Raise (NotEnoughPositionals (length (positionals self))
              (positional_idx + count_leading rest)), self).
Proof.
  revert positional_idx arg_obj.
  induction rest as [|component rest IH]; intros positional_idx arg_obj Hd Hlt;
    simpl in *; [lia|].
  unfold mbind, M_bind, get_self, raise, lift.
  destruct (startswith component "-").
  - rewrite (proj2 (Nat.ltb_lt _ _)) by lia. by rewrite Nat.add_0_r.
  - rewrite (proj2 (Nat.leb_gt _ _)) by lia. unfold index.
    destruct (lookup_lt_is_Some_2 (positionals self) positional_idx) as [p ->];
      [lia|].
    rewrite IH by lia. do 3 f_equal. lia.
Qed.

Lemma positional_loop_short self rest positional_idx arg_obj :
  count_leading rest = length rest →
  positional_idx + length rest ≤ length (positionals self) →
  ∃ arg_obj', positional_loop rest positional_idx arg_obj self =
                (Ok (positional_idx + length rest, arg_obj'), self).
Proof.
  revert positional_idx arg_obj.
  induction rest as [|component rest IH]; intros positional_idx arg_obj Hd Hle;
    simpl in *.
  - eexists. by rewrite Nat.add_0_r.
  - unfold mbind, M_bind, get_self, raise, lift.
    destruct (startswith component "-"); [done|].
    rewrite (proj2 (Nat.leb_gt _ _)) by lia. unfold index.
    destruct (lookup_lt_is_Some_2 (positionals self) positional_idx) as [p ->];
      [lia|].
    destruct (IH (positional_idx + 1)
                (setattr arg_obj
                   (KomandArg.label (PositionalKomandArg.base p))
                   (Some component))) as [arg_obj' ->]; [lia..|].
    eexists. do 3 f_equal. lia.
Qed.

(** The two arity errors of [parse], and the case it lets through: a
    dash token met before the positionals are all there, more leading
    tokens than positionals, and a line that ends before the
    positionals are all there. *)
Lemma parse_arity self code components :
  shlex.split code = Ok components →
  (count_leading components < length components →
   count_leading components < length (positionals self) →
   parse code self =
     (Raise (NotEnoughPositionals (length (positionals self))
               (count_leading components)), self))
  ∧ (length (positionals self) < count_leading components →
     parse code self =
       (Raise (TooMuchPositionals (length (positionals self))
                 (length (positionals self) + 1)), self))
  ∧ (count_leading components = length components →
     length components ≤ length (positionals self) →
     ∃ r, parse code self = (Ok r, self)).
Proof.
  intros Hs. unfold parse, mbind, M_bind, lift. rewrite Hs. cbv beta iota.
  unfold parse_components, mbind, M_bind, get_self.
  split; [|split].
  - intros Hd Hlt. by rewrite positional_loop_not_enough.
  - intros Hlt. by rewrite positional_loop_too_much by lia.
  - intros Hd Hle.
    destruct (positional_loop_short self components 0
                (init_flags_loop (flags self) ∅)) as [arg_obj' ->]; [done..|].
    simpl. unfold py_range.
    replace (length components - 1 - length components + (2 - 1)) with 1 by lia.
    simpl. by eexists.
Qed.

(** C7: a line whose tokens end with a dangling flag name, the
    positionals being all there and the tokens between them and the
    dangling name pairing up, is parsed as the line without that name:
    the name raises nothing, is not read as half of a pair, and sets no
    attribute, so its flag's label holds what the earlier pairs left
    there ([None] when no pair set it). *)
Theorem parse_ignores_dangling_flag_name
    (self : KomandParser) (code : string) (components : list string)
    (d : string) :
  shlex.split code = Ok (components ++ [d]) →
  startswith d "-" = true →
  length (positionals self) ≤ count_leading components →
  Nat.Even (length components - count_leading components) →
  parse code self = parse_components components self.
Proof.
  intros Hs Hd Hn Heven.
  unfold parse, mbind, M_bind, lift. rewrite Hs. cbv beta iota.
  unfold parse_components, mbind, M_bind, get_self.
  rewrite positional_loop_app_dash by (done || lia).
  destruct (positional_loop components 0 _ self) as [[[p arg_obj]|e] self']
    eqn:Hp; [|done].
  apply positional_loop_idx in Hp. simpl in Hp. subst p.
  pose proof (count_leading_le components) as Hle.
  rewrite length_app. simpl.
  replace (length components + 1 - 1) with (length components) by lia.
  rewrite py_range_2_even by done.
  apply flag_loop_ext. intros k Hk%elem_of_py_range_2.
  rewrite !lookup_app_l by lia. done.
Qed.

Lemma parse_ignores_dangling_flag_name_witness :
  (parse "POS1 -f yes --flag" parser_flag_force).2 = parser_flag_force
  ∧ getattrs ["P1"; "force"; "flag"]
      (parse "POS1 -f yes --flag" parser_flag_force).1
    = Ok [Some (Some "POS1"); Some (Some "yes"); Some None].
Proof.
  rewrite (parse_ignores_dangling_flag_name parser_flag_force
             "POS1 -f yes --flag" ["POS1"; "-f"; "yes"] "--flag").
  - split; vm_compute; reflexivity.
  - reflexivity.
  - reflexivity.
  - simpl. lia.
  - exists 1. reflexivity.
Defined.

(** ** Inputs on which the code leaves the specification *)

(** C2: with two positionals declared, the line ["a"] has one leading
    token and no dash token after it; [parse] raises nothing and
    returns a result in which [P2] was never set.  The arity is only
    checked when a dash token is met. *)
Theorem parse_accepts_missing_positional :
  length (positionals parser_two_positionals) = 2
  ∧ shlex.split "a" = Ok ["a"]
  ∧ getattrs ["P1"; "P2"] (parse "a" parser_two_positionals).1
    = Ok [Some (Some "a"); None]
  ∧ (parse "a --x v" parser_two_positionals).1 = Raise (NotEnoughPositionals 2 1)
  ∧ (parse "a b c" parser_two_positionals).1 = Raise (TooMuchPositionals 2 3).
Proof.
  repeat split; vm_compute; reflexivity.
Qed.

(** C4: a name given twice in one call is not looked for: the call
    returns and the list of all names and flags holds it twice. *)
Theorem add_argument_accepts_repeated_name :
  let r := add_argument ["-f"; "-f"] None None (KomandParser_init None) in
  r.1 = Ok ()
  ∧ all_names_and_flags r.2 = ["-f"; "-f"]
  ∧ ¬ NoDup (all_names_and_flags r.2).
Proof.
  split; [reflexivity|]. split; [reflexivity|].
  simpl. intros H. apply NoDup_cons in H as [H _]. apply H. by left.
Qed.

(** C5: after such a registration the flag-name completion lists the
    spelling twice. *)
Theorem do_complete_flag_name_repeats :
  (do_complete "POS1 --fl" parser_repeated_flag).1 = Ok ["--flag"; "--flag"]
  ∧ ¬ NoDup ["--flag"; "--flag"].
Proof.
  split; [reflexivity|].
  intros H. apply NoDup_cons in H as [H _]. apply H. by left.
Qed.

(** C6: the default label is [flags[0].strip("--")], which removes the
    dashes at both ends of the first flag, not only the leading ones. *)
Theorem default_label_strips_both_ends :
  (∃ arg, OptionalKomandArg.init ["--foo-"] None None None = Ok arg
          ∧ KomandArg.label (OptionalKomandArg.base arg) = "foo")
  ∧ lstrip "-" "--foo-" = "foo-"
  ∧ (KomandArg.label ∘ OptionalKomandArg.base) <$>
      flags (build [mkCall ["--foo-"] None None]) = ["foo"].
Proof. split; [|by split]. eexists. by split. Qed.

(** C8: a line may tokenize to an empty token (a pair of quotes); the
    test [last_word[0] == "-"], and the same test on a scanned token,
    then raise [IndexError]. *)
Theorem do_complete_raises_on_empty_token :
  shlex.split "''" = Ok [EmptyString]
  ∧ (do_complete "''" (KomandParser_init None)).1 = Raise IndexError
  ∧ shlex.split "a '' b" = Ok ["a"; EmptyString; "b"]
  ∧ (do_complete "a '' b" parser_flag_force).1 = Raise IndexError
  ∧ getattrs ["P1"; "P2"] (parse "a ''" parser_two_positionals).1
    = Ok [Some (Some "a"); Some (Some EmptyString)].
Proof. repeat split; vm_compute; reflexivity. Qed.

(** * Further properties of the code *)

(** settles a decidable statement about concrete values *)
Ltac decide_by_computation :=
  apply (bool_decide_unpack _); vm_compute; exact I.

(** ** Registration: errors *)

Lemma check_not_empty_first k pre post :
  Forall (λ n, n ≠ EmptyString) pre →
  check_not_empty k (pre ++ EmptyString :: post) =
    Raise (EmptyNameOrFlag (k + length pre)).
Proof.
  intros Hpre. revert k. induction Hpre as [|n pre Hn Hpre IH]; intros k; simpl.
  - by rewrite Nat.add_0_r.
  - destruct n as [|c w]; [done|]. simpl. rewrite IH. f_equal. f_equal. lia.
Qed.

Lemma check_not_empty_Ok_2 k rest :
  Forall (λ n, n ≠ EmptyString) rest → check_not_empty k rest = Ok ().
Proof.
  intros H. revert k. induction H as [|n rest Hn Hrest IH]; intros k; simpl; [done|].
  destruct n as [|c w]; [done|]. simpl. apply IH.
Qed.

Lemma check_not_defined_first pre x post self :
  Forall (λ n, n ∉ all_names_and_flags self) pre →
  x ∈ all_names_and_flags self →
  check_not_defined (pre ++ x :: post) self = (Raise (AlreadyDefined x), self).
Proof.
  intros Hpre Hx. induction Hpre as [|n pre Hn Hpre IH]; simpl;
    unfold mbind, M_bind, get_self, raise, str_in.
  - by rewrite bool_decide_eq_true_2.
  - by rewrite bool_decide_eq_false_2.
Qed.

Lemma check_flags_first flags pre t post :
  Forall (λ n, startswith n "-" = true) pre →
  t ≠ EmptyString → startswith t "-" = false →
  OptionalKomandArg.check_flags flags (pre ++ t :: post) =
    Raise (HeterogenousFlags flags t).
Proof.
  intros Hpre Hne Ht. induction Hpre as [|n pre Hn Hpre IH]; simpl.
  - rewrite startswith_dash in Ht.
    destruct (str_first t) as [c|] eqn:Hc; [|by destruct t].
    unfold mbind, result_bind. by rewrite Ht.
  - rewrite startswith_dash in Hn.
    destruct (str_first n) as [c|] eqn:Hc; [|done].
    unfold mbind, result_bind. by rewrite Hn.
Qed.

Lemma check_flags_Ok_2 flags rest :
  Forall (λ n, startswith n "-" = true) rest →
  OptionalKomandArg.check_flags flags rest = Ok ().
Proof.
  induction 1 as [|n rest Hn Hrest IH]; simpl; [done|].
  rewrite startswith_dash in Hn.
  destruct (str_first n) as [c|] eqn:Hc; [|done].
  unfold mbind, result_bind. by rewrite Hn.
Qed.

(** X1: an empty string among the names makes [add_argument] raise
    the empty-string error, whatever else is wrong with the call; the
    error carries the position of the first empty string, and the
    parser is unchanged. *)
Theorem add_argument_empty_name (pre post : list string)
    (completer : option (string → list string)) (label : option string)
    (self : KomandParser) :
  Forall (λ n, n ≠ EmptyString) pre →
  add_argument (pre ++ EmptyString :: post) completer label self =
    (Raise (EmptyNameOrFlag (length pre)), self).
Proof.
  intros Hpre. rewrite add_argument_run.
  by rewrite (check_not_empty_first 0 pre post Hpre).
Qed.

Lemma add_argument_empty_name_witness :
  add_argument ["--flag"; "-x"; EmptyString; "P1"; EmptyString] None None
    parser_flag_force
  = (Raise (EmptyNameOrFlag 2), parser_flag_force).
Proof.
  apply (add_argument_empty_name ["--flag"; "-x"] ["P1"; EmptyString] None None
           parser_flag_force).
  repeat constructor; discriminate.
Defined.

(** X2: when no name is empty, the first name of the call that an
    earlier call registered is refused: [add_argument] raises the
    already-defined error for that very name, before it looks at the
    shape of the call, and the parser is unchanged. *)
Theorem add_argument_first_defined_name (pre post : list string) (x : string)
    (completer : option (string → list string)) (label : option string)
    (self : KomandParser) :
  Forall (λ n, n ≠ EmptyString) (pre ++ x :: post) →
  Forall (λ n, n ∉ all_names_and_flags self) pre →
  x ∈ all_names_and_flags self →
  add_argument (pre ++ x :: post) completer label self =
    (Raise (AlreadyDefined x), self).
Proof.
  intros Hne Hpre Hx. rewrite add_argument_run.
  rewrite check_not_empty_Ok_2 by done.
  by rewrite (check_not_defined_first pre x post self Hpre Hx).
Qed.

Lemma add_argument_first_defined_name_witness :
  add_argument ["new"; "-f"; "P1"] None None parser_flag_force
  = (Raise (AlreadyDefined "-f"), parser_flag_force).
Proof.
  apply (add_argument_first_defined_name ["new"] ["P1"] "-f" None None
           parser_flag_force).
  - repeat constructor; discriminate.
  - repeat constructor. decide_by_computation.
  - decide_by_computation.
Defined.

Lemma check_not_defined_Ok_2 rest self :
  Forall (λ n, n ∉ all_names_and_flags self) rest →
  check_not_defined rest self = (Ok (), self).
Proof.
  induction 1 as [|n rest Hn Hrest IH]; simpl; [done|].
  unfold mbind, M_bind, get_self, str_in. by rewrite bool_decide_eq_false_2.
Qed.

Lemma startswith_dash_first s :
  startswith s "-" = true → str_first s = Ok dash.
Proof.
  rewrite startswith_dash. destruct s as [|c w]; [done|]. simpl.
  by intros ->%bool_decide_eq_true_1.
Qed.

Lemma startswith_dash_nonempty s : startswith s "-" = true → s ≠ EmptyString.
Proof. by destruct s. Qed.

Lemma not_startswith_dash_first s :
  s ≠ EmptyString → startswith s "-" = false →
  ∃ c, str_first s = Ok c ∧ bool_decide (c = dash) = false.
Proof.
  rewrite startswith_dash. destruct s as [|c w]; [done|]. simpl. eauto.
Qed.

(** X3: a call whose first name starts with a dash and one of whose
    names does not is refused with the heterogenous-flags error, which
    carries the whole list and the first name without a dash; the
    parser is unchanged. *)
Theorem add_argument_heterogenous (pre post : list string) (t : string)
    (completer : option (string → list string)) (label : option string)
    (self : KomandParser) :
  pre ≠ [] →
  Forall (λ n, startswith n "-" = true) pre →
  startswith t "-" = false →
  Forall (λ n, n ≠ EmptyString) (t :: post) →
  Forall (λ n, n ∉ all_names_and_flags self) (pre ++ t :: post) →
  add_argument (pre ++ t :: post) completer label self =
    (Raise (HeterogenousFlags (pre ++ t :: post) t), self).
Proof.
  intros Hnil Hpre Ht Hne Hfresh. rewrite add_argument_run.
  rewrite check_not_empty_Ok_2.
  2:{ apply Forall_app. split; [|done].
      eapply Forall_impl; [exact Hpre|]. apply startswith_dash_nonempty. }
  rewrite check_not_defined_Ok_2 by done. simpl.
  destruct pre as [|first pre']; [done|]. simpl.
  apply Forall_cons in Hpre as Hpre'. destruct Hpre' as [Hfirst _].
  rewrite (startswith_dash_first first Hfirst).
  rewrite bool_decide_eq_true_2 by done.
  unfold OptionalKomandArg.init, mbind, result_bind.
  destruct (match label with
            | Some l => Ok l
            | None => _
            end) as [lbl|e] eqn:Hl; [|by destruct label].
  change (first :: pre' ++ t :: post) with ((first :: pre') ++ t :: post).
  rewrite check_flags_first; try done. by inversion Hne.
Qed.

Lemma add_argument_heterogenous_witness :
  add_argument ["--verbose"; "-v"; "verbose"; "-V"] None None parser_flag_force
  = (Raise (HeterogenousFlags ["--verbose"; "-v"; "verbose"; "-V"] "verbose"),
     parser_flag_force).
Proof.
  apply (add_argument_heterogenous ["--verbose"; "-v"] ["-V"] "verbose" None None
           parser_flag_force).
  - discriminate.
  - by repeat constructor.
  - reflexivity.
  - repeat constructor; discriminate.
  - repeat constructor; decide_by_computation.
Defined.

(** X4: a call whose first name does not start with a dash and that
    gives more than one name is refused with the only-one-name error,
    which carries the whole list, whatever the other names look like;
    the parser is unchanged. *)
Theorem add_argument_only_one_name (name other : string) (rest : list string)
    (completer : option (string → list string)) (label : option string)
    (self : KomandParser) :
  startswith name "-" = false →
  Forall (λ n, n ≠ EmptyString) (name :: other :: rest) →
  Forall (λ n, n ∉ all_names_and_flags self) (name :: other :: rest) →
  add_argument (name :: other :: rest) completer label self =
    (Raise (OnlyOneName (name :: other :: rest)), self).
Proof.
  intros Hd Hne Hfresh. rewrite add_argument_run.
  rewrite check_not_empty_Ok_2 by done.
  rewrite check_not_defined_Ok_2 by done. simpl.
  destruct (not_startswith_dash_first name) as (c & -> & ->); [|done|done].
  by inversion Hne.
Qed.

Lemma add_argument_only_one_name_witness :
  add_argument ["P2"; "--p2"] None None parser_flag_force
  = (Raise (OnlyOneName ["P2"; "--p2"]), parser_flag_force).
Proof.
  apply (add_argument_only_one_name "P2" "--p2" [] None None parser_flag_force).
  - reflexivity.
  - repeat constructor; discriminate.
  - repeat constructor; decide_by_computation.
Defined.

(** ** Registration: what a call that returns has done *)

Lemma add_argument_flag_Ok name_or_flags completer label self :
  name_or_flags ≠ [] →
  Forall (λ n, startswith n "-" = true) name_or_flags →
  Forall (λ n, n ∉ all_names_and_flags self) name_or_flags →
  add_argument name_or_flags completer label self =
    (Ok (), {| description := description self;
               all_names_and_flags := all_names_and_flags self ++ name_or_flags;
               flags := flags self ++ [flag_of_call name_or_flags completer label];
               positionals := positionals self |}).
Proof.
  intros Hnil Hd Hfresh. rewrite add_argument_run.
  rewrite check_not_empty_Ok_2
    by (eapply Forall_impl; [exact Hd|]; apply startswith_dash_nonempty).
  rewrite check_not_defined_Ok_2 by done. simpl.
  destruct name_or_flags as [|first others]; [done|].
  apply Forall_cons in Hd as Hd'. destruct Hd' as [Hfirst _].
  rewrite (startswith_dash_first first Hfirst).
  rewrite bool_decide_eq_true_2 by done.
  unfold OptionalKomandArg.init, mbind, result_bind.
  rewrite check_flags_Ok_2 by done. by destruct label.
Qed.

Lemma add_argument_positional_Ok name completer label self :
  name ≠ EmptyString → startswith name "-" = false →
  name ∉ all_names_and_flags self →
  add_argument [name] completer label self =
    (Ok (), {| description := description self;
               all_names_and_flags := all_names_and_flags self ++ [name];
               flags := flags self;
               positionals :=
                 positionals self ++ [positional_of_call name completer label] |}).
Proof.
  intros Hne Hd Hfresh. rewrite add_argument_run.
  rewrite check_not_empty_Ok_2 by by constructor.
  rewrite check_not_defined_Ok_2 by by constructor.
  destruct (not_startswith_dash_first name) as (c & Hc & Hcd); [done..|].
  simpl. rewrite Hc, Hcd. simpl.
  unfold PositionalKomandArg.init, mbind, result_bind. rewrite Hc, Hcd.
  by destruct label.
Qed.

Lemma add_argument_Ok_acceptable name_or_flags completer label self :
  (add_argument name_or_flags completer label self).1 = Ok ()
  ↔ acceptable self name_or_flags.
Proof.
  split.
  - intros Hok.
    destruct (add_argument_cases name_or_flags completer label self)
      as [[e He]|[(arg & Hne & Hfresh & Hd & _ & _)
                 |(name & arg & -> & Hne & Hfresh & Hd & _)]].
    + by rewrite He in Hok.
    + split; [done|]. split; [done|]. left. split; [|done].
      intros ->. by rewrite add_argument_run in Hok.
    + split; [by constructor|]. split; [by constructor|]. right. by exists name.
  - intros (Hne & Hfresh & [[Hnil Hd]|(name & -> & Hd)]).
    + by rewrite add_argument_flag_Ok.
    + rewrite add_argument_positional_Ok; try done.
      * by inversion Hne.
      * by inversion Hfresh.
Qed.

(** What one call does, with the argument it appends. *)
Lemma add_argument_outcome name_or_flags completer label self :
  (∃ e, add_argument name_or_flags completer label self = (Raise e, self))
  ∨ (name_or_flags ≠ []
     ∧ Forall (λ n, startswith n "-" = true) name_or_flags
     ∧ Forall (λ n, n ∉ all_names_and_flags self) name_or_flags
     ∧ add_argument name_or_flags completer label self =
         (Ok (), {| description := description self;
                    all_names_and_flags :=
                      all_names_and_flags self ++ name_or_flags;
                    flags :=
                      flags self ++ [flag_of_call name_or_flags completer label];
                    positionals := positionals self |}))
  ∨ (∃ name,
       name_or_flags = [name] ∧ name ≠ EmptyString
       ∧ startswith name "-" = false
       ∧ (name ∉ all_names_and_flags self)
       ∧ add_argument name_or_flags completer label self =
           (Ok (), {| description := description self;
                      all_names_and_flags := all_names_and_flags self ++ [name];
                      flags := flags self;
                      positionals :=
                        positionals self
                        ++ [positional_of_call name completer label] |})).
Proof.
  destruct (add_argument name_or_flags completer label self) as [[[]|e] self']
    eqn:Hrun.
  - assert (acceptable self name_or_flags)
      as (Hne & Hfresh & [[Hnil Hd]|(name & -> & Hd)]).
    { apply (add_argument_Ok_acceptable name_or_flags completer label).
      by rewrite Hrun. }
    + right. left. rewrite add_argument_flag_Ok in Hrun by done.
      by injection Hrun as <-.
    + right. right. exists name.
      apply Forall_cons in Hne as [Hne _]. apply Forall_cons in Hfresh as [Hfresh _].
      rewrite add_argument_positional_Ok in Hrun by done.
      by injection Hrun as <-.
  - left. exists e.
    destruct (add_argument_cases name_or_flags completer label self)
      as [[e' He]|[(arg & _ & _ & _ & _ & He)|(name & arg & _ & _ & _ & _ & He)]];
      rewrite He in Hrun; by simplify_eq.
Qed.

(** X5: [add_argument] returns exactly on the calls whose names are
    all non-empty and unregistered and that give either one or more
    names that all start with a dash, or a single name that does not;
    every other call raises. *)
Theorem add_argument_returns_iff (name_or_flags : list string)
    (completer : option (string → list string)) (label : option string)
    (self : KomandParser) :
  (add_argument name_or_flags completer label self).1 = Ok ()
  ↔ acceptable self name_or_flags.
Proof. apply add_argument_Ok_acceptable. Qed.

Lemma add_argument_returns_iff_witness :
  (add_argument ["--out"; "-o"] None None parser_flag_force).1 = Ok ()
  ∧ ¬ acceptable parser_flag_force ["--out"; "-f"].
Proof.
  split.
  - apply (add_argument_returns_iff ["--out"; "-o"] None None parser_flag_force).
    split; [repeat constructor; discriminate|].
    split; [repeat constructor; decide_by_computation|].
    left. split; [discriminate|by repeat constructor].
  - intros H.
    apply (add_argument_returns_iff ["--out"; "-f"] None None parser_flag_force)
      in H.
    vm_compute in H. discriminate.
Defined.

(** X6: a call that returns has appended its names, in order, to the
    list of all names and flags and exactly one argument to the parser:
    a flag holding all the names of the call when the first starts with
    a dash, else a positional; the label is the one given, else the
    positional's name or the first flag with its dashes stripped.
    Nothing that was registered before is changed or removed. *)
Theorem add_argument_appends (name_or_flags : list string)
    (completer : option (string → list string)) (label : option string)
    (self self' : KomandParser) :
  add_argument name_or_flags completer label self = (Ok (), self') →
  description self' = description self
  ∧ all_names_and_flags self' = all_names_and_flags self ++ name_or_flags
  ∧ ((Forall (λ n, startswith n "-" = true) name_or_flags
      ∧ flags self' = flags self ++ [flag_of_call name_or_flags completer label]
      ∧ positionals self' = positionals self)
     ∨ (∃ name, name_or_flags = [name] ∧ startswith name "-" = false
        ∧ flags self' = flags self
        ∧ positionals self' =
            positionals self ++ [positional_of_call name completer label])).
Proof.
  intros Hrun.
  destruct (add_argument_outcome name_or_flags completer label self)
    as [[e He]|[(_ & Hd & _ & He)|(name & -> & _ & Hd & _ & He)]];
    rewrite He in Hrun; [done|..]; injection Hrun as <-; simpl.
  - split; [done|]. split; [done|]. by left.
  - split; [done|]. split; [done|]. right. by exists name.
Qed.

Lemma add_argument_appends_witness :
  flags (add_argument ["--out"; "-o"] None None parser_flag_force).2
  = flags parser_flag_force ++ [flag_of_call ["--out"; "-o"] None None].
Proof.
  destruct (add_argument_appends ["--out"; "-o"] None None parser_flag_force
              (add_argument ["--out"; "-o"] None None parser_flag_force).2)
    as (_ & _ & [(_ & H & _)|(name & Hname & _)]).
  - reflexivity.
  - exact H.
  - discriminate Hname.
Defined.

(** ** Parsers built by calls: shape *)

Lemma filter_none {A} (P : A → Prop) `{∀ x, Decision (P x)} (l : list A) :
  Forall (λ x, ¬ P x) l → filter P l = [].
Proof.
  induction 1 as [|x l Hx Hl IH]; [done|]. by rewrite filter_cons_False.
Qed.

Lemma shape_init description : shape (KomandParser_init description).
Proof. split; [apply wf_init|done|constructor]. Qed.

Lemma shape_step self c : shape self → shape (step self c).
Proof.
  intros [Hwf Hpos Hfl]. split; [by apply wf_step| |]; unfold step, run_call;
    destruct (add_argument_outcome (call_name_or_flags c) (call_completer c)
                (call_label c) self)
      as [[e ->]|[(Hnil & Hd & _ & ->)|(name & -> & Hne & Hd & _ & ->)]];
    simpl; try done.
  - rewrite filter_app, Hpos, filter_none, app_nil_r; [done|].
    eapply Forall_impl; [exact Hd|]. intros n ->. done.
  - unfold positional_names. simpl.
    rewrite filter_app, Hpos, fmap_app. f_equal.
    by rewrite filter_cons_True.
  - apply Forall_app. split; [done|]. by repeat constructor.
Qed.

Lemma shape_build calls : shape (build calls).
Proof.
  unfold build. generalize (shape_init None).
  generalize (KomandParser_init None).
  induction calls as [|c calls IH]; intros self Hs; [done|].
  simpl. apply IH. by apply shape_step.
Qed.

(** X7: whatever the calls, accepted or refused, that built it, a
    parser keeps this shape: no registered name is empty; the
    registered names that start with a dash are, in order, the
    spellings of the flags, and the others are, in order, the names of
    the positionals; every flag has at least one spelling and all its
    spellings start with a dash. *)
Theorem built_parser_shape (calls : list call) :
  Forall (λ n, n ≠ EmptyString) (all_names_and_flags (build calls))
  ∧ filter (λ n, startswith n "-" = true) (all_names_and_flags (build calls))
    = spellings (build calls)
  ∧ filter (λ n, startswith n "-" = false) (all_names_and_flags (build calls))
    = positional_names (build calls)
  ∧ Forall (λ f, OptionalKomandArg.flags f ≠ []
                 ∧ Forall (λ n, startswith n "-" = true)
                     (OptionalKomandArg.flags f)) (flags (build calls)).
Proof.
  destruct (shape_build calls) as [[Hne Hsp] Hpos Hfl]. by repeat split.
Qed.

(** X8: when no call repeats a name within itself, the registered
    names are pairwise distinct, and so are the flag spellings and the
    positional names: calls never share a name. *)
Theorem built_parser_names_distinct (calls : list call) :
  Forall (λ c, NoDup (call_name_or_flags c)) calls →
  NoDup (all_names_and_flags (build calls))
  ∧ NoDup (spellings (build calls))
  ∧ NoDup (positional_names (build calls)).
Proof.
  intros Hcalls. pose proof (NoDup_all_names_build calls Hcalls) as Hnd.
  destruct (shape_build calls) as [[_ Hsp] Hpos _].
  split; [done|]. split.
  - rewrite <- Hsp. by apply NoDup_filter.
  - rewrite <- Hpos. by apply NoDup_filter.
Qed.

Lemma built_parser_names_distinct_witness :
  NoDup (all_names_and_flags parser_flag_force)
  ∧ NoDup (spellings parser_flag_force)
  ∧ NoDup (positional_names parser_flag_force).
Proof.
  apply (built_parser_names_distinct
           [mkCall ["P1"] (const_completer ["alpha"; "beta"]) None;
            mkCall ["--force"; "-f"] None None;
            mkCall ["--flag"] (const_completer ["True"; "False"]) None]).
  repeat constructor; simpl; decide_by_computation.
Defined.

(** ** Looking a flag up *)

Lemma find_loop_app_l flag_name l1 l2 flag :
  find_flag_with_name_loop flag_name l1 = Ok flag →
  find_flag_with_name_loop flag_name (l1 ++ l2) = Ok flag.
Proof.
  induction l1 as [|each l1 IH]; simpl; [done|].
  destruct (str_in flag_name (OptionalKomandArg.flags each)); [done|]. apply IH.
Qed.

Lemma find_loop_app_r flag_name l1 l2 :
  Forall (λ f, flag_name ∉ OptionalKomandArg.flags f) l1 →
  find_flag_with_name_loop flag_name (l1 ++ l2) =
    find_flag_with_name_loop flag_name l2.
Proof.
  induction 1 as [|each l1 Hn Hl1 IH]; simpl; [done|].
  unfold str_in. by rewrite bool_decide_eq_false_2.
Qed.

Lemma find_loop_elem flag_name l :
  flag_name ∈ mjoin (OptionalKomandArg.flags <$> l) →
  ∃ flag, find_flag_with_name_loop flag_name l = Ok flag
          ∧ flag ∈ l ∧ flag_name ∈ OptionalKomandArg.flags flag.
Proof.
  induction l as [|each l IH]; simpl.
  - by intros ?%elem_of_nil.
  - intros Hin. unfold str_in.
    destruct (decide (flag_name ∈ OptionalKomandArg.flags each)) as [Hh|Hh].
    + rewrite bool_decide_eq_true_2 by done. exists each.
      split; [done|]. split; [by left|done].
    + rewrite bool_decide_eq_false_2 by done.
      apply elem_of_app in Hin as [Hin|Hin]; [done|].
      destruct (IH Hin) as (flag & Hf & Hfl & Ha). exists flag.
      split; [done|]. split; [by right|done].
Qed.

Lemma spelling_registered self token :
  wf self → token ∈ spellings self →
  token ∈ all_names_and_flags self ∧ startswith token "-" = true.
Proof.
  intros [_ Hsp]. rewrite <- Hsp. intros [Hd Hin]%list_elem_of_filter. done.
Qed.

(** X9: on a parser built by calls, [find_flag_with_name] returns on
    the flag spellings and on nothing else.  On a spelling it returns a
    flag of the parser that has this spelling; on any other token it
    raises: [IndexError] on the empty token, the unexpected-name error
    on a token without a leading dash, the unknown-name error
    otherwise. *)
Theorem find_flag_with_name_on_built (calls : list call) (token : string) :
  (token ∈ spellings (build calls) →
   ∃ flag, find_flag_with_name token (build calls) = (Ok flag, build calls)
           ∧ flag ∈ flags (build calls)
           ∧ token ∈ OptionalKomandArg.flags flag)
  ∧ (token ∉ spellings (build calls) →
     find_flag_with_name token (build calls)
       = (Raise (lookup_error token), build calls)).
Proof.
  pose proof (wf_build calls) as Hwf. split.
  - intros Hin. destruct (spelling_registered _ _ Hwf Hin) as [Hreg Hd].
    rewrite find_flag_with_name_run by by apply startswith_dash_first.
    unfold str_in. rewrite bool_decide_eq_true_2 by done.
    destruct (find_loop_elem token (flags (build calls)) Hin)
      as (flag & -> & Hfl & Ha). by exists flag.
  - intros Hout. unfold lookup_error.
    destruct (str_first token) as [c|] eqn:Hc.
    + destruct (bool_decide (c = dash)) eqn:Hcd.
      * apply bool_decide_eq_true_1 in Hcd. subst c.
        rewrite find_flag_with_name_run by done.
        unfold str_in. rewrite bool_decide_eq_false_2; [done|].
        intros Hreg. apply Hout. rewrite <- (wf_spellings _ Hwf).
        apply list_elem_of_filter. split; [|done].
        rewrite startswith_dash, Hc. by apply bool_decide_eq_true_2.
      * unfold find_flag_with_name, mbind, M_bind, lift, raise.
        by rewrite Hc, Hcd.
    + unfold find_flag_with_name, mbind, M_bind, lift.
      destruct token; [reflexivity|discriminate].
Qed.

Lemma find_flag_with_name_on_built_witness :
  (∃ flag, find_flag_with_name "-f" parser_flag_force = (Ok flag, parser_flag_force)
           ∧ flag ∈ flags parser_flag_force
           ∧ "-f" ∈ OptionalKomandArg.flags flag)
  ∧ find_flag_with_name "P1" parser_flag_force
    = (Raise (UnexpectedFlagName "P1"), parser_flag_force)
  ∧ find_flag_with_name "--nope" parser_flag_force
    = (Raise (UnknownFlagName "--nope"), parser_flag_force).
Proof.
  split; [|split].
  - apply (proj1 (find_flag_with_name_on_built
             [mkCall ["P1"] (const_completer ["alpha"; "beta"]) None;
              mkCall ["--force"; "-f"] None None;
              mkCall ["--flag"] (const_completer ["True"; "False"]) None] "-f")).
    decide_by_computation.
  - apply (proj2 (find_flag_with_name_on_built
             [mkCall ["P1"] (const_completer ["alpha"; "beta"]) None;
              mkCall ["--force"; "-f"] None None;
              mkCall ["--flag"] (const_completer ["True"; "False"]) None] "P1")).
    decide_by_computation.
  - apply (proj2 (find_flag_with_name_on_built
             [mkCall ["P1"] (const_completer ["alpha"; "beta"]) None;
              mkCall ["--force"; "-f"] None None;
              mkCall ["--flag"] (const_completer ["True"; "False"]) None] "--nope")).
    decide_by_computation.
Defined.

Lemma build_snoc calls c : build (calls ++ [c]) = step (build calls) c.
Proof. unfold build. by rewrite foldl_app. Qed.

Lemma find_flag_with_name_Ok_inv flag_name self flag :
  (find_flag_with_name flag_name self).1 = Ok flag →
  str_first flag_name = Ok dash
  ∧ flag_name ∈ all_names_and_flags self
  ∧ find_flag_with_name_loop flag_name (flags self) = Ok flag.
Proof.
  unfold find_flag_with_name, mbind, M_bind, lift, raise, get_self, str_in.
  destruct (str_first flag_name) as [c|]; [|done].
  destruct (bool_decide (c = dash)) eqn:Hc; simpl; [|done].
  apply bool_decide_eq_true_1 in Hc. subst c.
  destruct (decide (flag_name ∈ all_names_and_flags self)).
  - rewrite bool_decide_eq_true_2 by done. simpl. done.
  - rewrite bool_decide_eq_false_2 by done. done.
Qed.

(** X10: registering a flag and looking it up.  After a call that
    returns and whose names start with a dash, every name of the call
    resolves to the flag that the call appended: it holds all the names
    of the call and the completer of the call. *)
Theorem registered_flag_resolves (calls : list call)
    (name_or_flags : list string) (completer : option (string → list string))
    (label : option string) (token : string) :
  acceptable (build calls) name_or_flags →
  Forall (λ n, startswith n "-" = true) name_or_flags →
  token ∈ name_or_flags →
  find_flag_with_name token
    (build (calls ++ [mkCall name_or_flags completer label]))
  = (Ok (flag_of_call name_or_flags completer label),
     build (calls ++ [mkCall name_or_flags completer label])).
Proof.
  intros (_ & Hfresh & _) Hd Hin. rewrite build_snoc. unfold step, run_call. simpl.
  assert (name_or_flags ≠ []) as Hnil by (intros ->; by apply elem_of_nil in Hin).
  rewrite add_argument_flag_Ok by done. simpl.
  rewrite Forall_forall in Hd. rewrite Forall_forall in Hfresh.
  rewrite find_flag_with_name_run by (apply startswith_dash_first; auto).
  simpl. unfold str_in. rewrite bool_decide_eq_true_2
    by (apply elem_of_app; by right).
  rewrite find_loop_app_r.
  - simpl. unfold str_in. by rewrite bool_decide_eq_true_2.
  - apply Forall_forall. intros f Hf Htok. apply (Hfresh token Hin).
    apply (spelling_registered _ _ (wf_build calls)).
    unfold spellings. apply list_elem_of_join. exists (OptionalKomandArg.flags f).
    split; [done|]. by apply list_elem_of_fmap_2.
Qed.

Lemma registered_flag_resolves_witness :
  find_flag_with_name "-o"
    (build ([mkCall ["P1"] None None; mkCall ["--force"; "-f"] None None]
            ++ [mkCall ["--out"; "-o"] (const_completer ["a.txt"]) (Some "target")]))
  = (Ok (flag_of_call ["--out"; "-o"] (const_completer ["a.txt"]) (Some "target")),
     build ([mkCall ["P1"] None None; mkCall ["--force"; "-f"] None None]
            ++ [mkCall ["--out"; "-o"] (const_completer ["a.txt"]) (Some "target")])).
Proof.
  apply (registered_flag_resolves
           [mkCall ["P1"] None None; mkCall ["--force"; "-f"] None None]
           ["--out"; "-o"] (const_completer ["a.txt"]) (Some "target") "-o").
  - split; [repeat constructor; discriminate|].
    split; [repeat constructor; decide_by_computation|].
    left. split; [discriminate|by repeat constructor].
  - by repeat constructor.
  - decide_by_computation.
Defined.

(** X11: a later call, whether it returns or raises, changes no
    lookup that succeeded before it: a token that resolved to a flag
    resolves to the same flag afterwards. *)
Theorem registration_keeps_lookups (self : KomandParser)
    (name_or_flags : list string) (completer : option (string → list string))
    (label : option string) (token : string) (flag : OptionalKomandArg.t) :
  (find_flag_with_name token self).1 = Ok flag →
  (find_flag_with_name token
     (add_argument name_or_flags completer label self).2).1 = Ok flag.
Proof.
  intros (Hc & Hin & Hloop)%find_flag_with_name_Ok_inv.
  rewrite find_flag_with_name_run by done. unfold str_in.
  destruct (add_argument_cases name_or_flags completer label self)
    as [[e ->]|[(arg & _ & _ & _ & _ & ->)|(name & arg & _ & _ & _ & _ & ->)]];
    simpl.
  - by rewrite bool_decide_eq_true_2.
  - rewrite bool_decide_eq_true_2 by (apply elem_of_app; by left).
    by apply find_loop_app_l.
  - by rewrite bool_decide_eq_true_2 by (apply elem_of_app; by left).
Qed.

Lemma registration_keeps_lookups_witness :
  (find_flag_with_name "-f"
     (add_argument ["--out"; "-o"] None None parser_flag_force).2).1
  = Ok (flag_of_call ["--force"; "-f"] None None).
Proof.
  apply (registration_keeps_lookups parser_flag_force ["--out"; "-o"] None None
           "-f" (flag_of_call ["--force"; "-f"] None None)).
  reflexivity.
Defined.

(** ** Parsing a line *)

Lemma py_range_2_cons start stop :
  start < stop → py_range start stop 2 = start :: py_range (start + 2) stop 2.
Proof.
  intros Hlt. unfold py_range. change (2 - 1) with 1.
  assert ((stop - start + 1) / 2 = S ((stop - (start + 2) + 1) / 2)) as ->.
  { destruct (decide (stop - start = 1)) as [H1|H1].
    - rewrite H1. replace (stop - (start + 2)) with 0 by lia. done.
    - replace (stop - start + 1) with ((stop - (start + 2) + 1) + 1 * 2) by lia.
      rewrite Nat.div_add by done. lia. }
  simpl. f_equal; [lia|].
  rewrite <- fmap_S_seq, <- list_fmap_compose. apply list_fmap_ext.
  intros _ i _. simpl. lia.
Qed.

Lemma py_range_2_nil start stop : stop ≤ start → py_range start stop 2 = [].
Proof.
  intros Hle. unfold py_range. change (2 - 1) with 1.
  by replace (stop - start) with 0 by lia.
Qed.

Lemma find_flag_with_name_resolved self token flag :
  resolves self token flag → find_flag_with_name token self = (Ok flag, self).
Proof.
  unfold resolves. intros H.
  pose proof (readonly_find_flag_with_name token self) as Hro.
  destruct (find_flag_with_name token self) as [r self']. simpl in *. by subst.
Qed.

Lemma find_flag_with_name_unresolved self token :
  (∀ flag, ¬ resolves self token flag) →
  find_flag_with_name token self = (Raise (lookup_error token), self).
Proof.
  unfold resolves, lookup_error. intros Hno.
  destruct (str_first token) as [c|] eqn:Hc.
  - destruct (bool_decide (c = dash)) eqn:Hcd.
    + apply bool_decide_eq_true_1 in Hcd. subst c.
      rewrite find_flag_with_name_run in * by done.
      destruct (str_in token (all_names_and_flags self)); [|done]. simpl in Hno.
      destruct (find_flag_with_name_loop token (flags self)) as [f|e] eqn:Hl.
      * by destruct (Hno f).
      * f_equal. clear Hno. induction (flags self) as [|each l IH]; simpl in Hl.
        -- done.
        -- destruct (str_in token (OptionalKomandArg.flags each)); [done|auto].
    + unfold find_flag_with_name, mbind, M_bind, lift, raise. by rewrite Hc, Hcd.
  - unfold find_flag_with_name, mbind, M_bind, lift.
    destruct token; [reflexivity|discriminate].
Qed.

Lemma resolves_dash self token flag :
  resolves self token flag → startswith token "-" = true.
Proof.
  intros (Hc & _)%find_flag_with_name_Ok_inv.
  rewrite startswith_dash, Hc. by apply bool_decide_eq_true_2.
Qed.

Lemma flag_loop_step self pre n v rest arg_obj :
  flag_loop (pre ++ n :: v :: rest)
    (py_range (length pre) (length (pre ++ n :: v :: rest) - 1) 2) arg_obj self
  = match (find_flag_with_name n self).1 with
    | Ok f =>
        flag_loop ((pre ++ [n; v]) ++ rest)
          (py_range (length (pre ++ [n; v]))
             (length ((pre ++ [n; v]) ++ rest) - 1) 2)
          (setattr arg_obj (flag_label f) (Some v)) self
    | Raise e => (Raise e, self)
    end.
Proof.
  rewrite py_range_2_cons by (rewrite length_app; simpl; lia).
  simpl flag_loop. unfold index.
  rewrite (list_lookup_middle pre _ n (length pre)) by done.
  assert ((pre ++ n :: v :: rest) !! (length pre + 1) = Some v) as ->.
  { rewrite lookup_app_r by lia.
    by replace (length pre + 1 - length pre) with 1 by lia. }
  unfold mbind at 1, M_bind at 1, lift at 1.
  unfold mbind at 1, M_bind at 1, lift at 1.
  rewrite bind_readonly by auto with readonly.
  destruct (find_flag_with_name n self).1 as [f|e]; [|done].
  rewrite <- !app_assoc. simpl. rewrite !length_app. simpl.
  done.
Qed.

(** the loop over [range(positional_idx, len(components) - 1, 2)] takes
    the tokens after the positionals two by two *)
Lemma flag_loop_pairs self pre pairs fs tail arg_obj :
  Forall2 (λ pair f, resolves self pair.1 f) pairs fs →
  length tail ≤ 1 →
  flag_loop (pre ++ flatten pairs ++ tail)
    (py_range (length pre) (length (pre ++ flatten pairs ++ tail) - 1) 2)
    arg_obj self
  = (Ok (bind_flags fs pairs.*2 arg_obj), self).
Proof.
  intros Hres Htail. revert pre arg_obj.
  induction Hres as [|[n v] f pairs fs Hr Hres IH]; intros pre arg_obj.
  - simpl. rewrite py_range_2_nil; [done|]. rewrite length_app. lia.
  - change (flatten ((n, v) :: pairs) ++ tail)
      with (n :: v :: flatten pairs ++ tail).
    rewrite flag_loop_step. unfold resolves in Hr. simpl in Hr. rewrite Hr.
    by rewrite IH.
Qed.

Lemma flag_loop_unresolved self pre pairs fs a v rest arg_obj :
  Forall2 (λ pair f, resolves self pair.1 f) pairs fs →
  (∀ flag, ¬ resolves self a flag) →
  flag_loop (pre ++ flatten pairs ++ a :: v :: rest)
    (py_range (length pre)
       (length (pre ++ flatten pairs ++ a :: v :: rest) - 1) 2)
    arg_obj self
  = (Raise (lookup_error a), self).
Proof.
  intros Hres Hno. revert pre arg_obj.
  induction Hres as [|[n w] f pairs fs Hr Hres IH]; intros pre arg_obj.
  - simpl app. rewrite flag_loop_step.
    by rewrite (find_flag_with_name_unresolved self a Hno).
  - change (flatten ((n, w) :: pairs) ++ a :: v :: rest)
      with (n :: w :: flatten pairs ++ a :: v :: rest).
    rewrite flag_loop_step. unfold resolves in Hr. simpl in Hr. rewrite Hr.
    by rewrite IH.
Qed.

Lemma positional_loop_bind self pos rest positional_idx arg_obj :
  Forall (λ t, startswith t "-" = false) pos →
  positional_idx + length pos ≤ length (positionals self) →
  rest = []
  ∨ (positional_idx + length pos = length (positionals self)
     ∧ ∃ d rest', rest = d :: rest' ∧ startswith d "-" = true) →
  positional_loop (pos ++ rest) positional_idx arg_obj self =
    (Ok (positional_idx + length pos,
         bind_positionals (drop positional_idx (positionals self)) pos arg_obj),
     self).
Proof.
  intros Hpos. revert positional_idx arg_obj.
  induction Hpos as [|component pos Hc Hpos IH]; intros positional_idx arg_obj Hle Hrest.
  - simpl. rewrite Nat.add_0_r.
    unfold bind_positionals. rewrite zip_with_nil_r. simpl.
    destruct Hrest as [->|(Hfull & d & rest' & -> & Hd)]; [done|].
    simpl. unfold mbind, M_bind, get_self. rewrite Hd.
    simpl in Hfull. by rewrite (proj2 (Nat.ltb_ge _ _)) by lia.
  - simpl in *. unfold mbind, M_bind, get_self, lift. rewrite Hc.
    rewrite (proj2 (Nat.leb_gt _ _)) by lia. unfold index.
    destruct (lookup_lt_is_Some_2 (positionals self) positional_idx) as [p Hp];
      [lia|].
    rewrite Hp. rewrite IH.
    + rewrite (drop_S _ _ _ Hp). unfold bind_positionals. simpl.
      rewrite Nat.add_1_r. do 3 f_equal. lia.
    + lia.
    + destruct Hrest as [->|(Hfull & Hd)]; [by left|]. right. split; [lia|done].
Qed.

(** a line of as many tokens without dash as there are positionals,
    then (flag, value) pairs whose flags resolve, then nothing or one
    more dash token *)
Lemma parse_components_line self pos pairs fs tail :
  length pos = length (positionals self) →
  Forall (λ t, startswith t "-" = false) pos →
  Forall2 (λ pair f, resolves self pair.1 f) pairs fs →
  length tail ≤ 1 → Forall (λ d, startswith d "-" = true) tail →
  parse_components (pos ++ flatten pairs ++ tail) self =
    (Ok (bind_flags fs pairs.*2
           (bind_positionals (positionals self) pos (absent_flags self))), self).
Proof.
  intros Hlen Hpos Hres Htail Hd.
  unfold parse_components, mbind, M_bind, get_self.
  rewrite positional_loop_bind; [|done|simpl; lia|].
  - simpl. rewrite Hlen. rewrite <- Hlen at 1.
    rewrite (flag_loop_pairs self pos pairs fs tail) by done.
    by rewrite drop_0.
  - destruct Hres as [|[n v] f pairs fs Hr Hres].
    + destruct tail as [|d tail']; [by left|]. right. split; [simpl; lia|].
      exists d, tail'. split; [done|]. by inversion Hd.
    + right. split; [simpl; lia|]. eexists n, _. split; [done|].
      by apply (resolves_dash self n f).
Qed.

Lemma parse_components_unresolved self pos pairs fs a v rest :
  length pos = length (positionals self) →
  Forall (λ t, startswith t "-" = false) pos →
  Forall2 (λ pair f, resolves self pair.1 f) pairs fs →
  pairs ≠ [] ∨ startswith a "-" = true →
  (∀ flag, ¬ resolves self a flag) →
  parse_components (pos ++ flatten pairs ++ a :: v :: rest) self =
    (Raise (lookup_error a), self).
Proof.
  intros Hlen Hpos Hres Hfirst Hno.
  unfold parse_components, mbind, M_bind, get_self.
  rewrite positional_loop_bind; [|done|simpl; lia|].
  - simpl. rewrite Hlen. rewrite <- Hlen at 1.
    by rewrite (flag_loop_unresolved self pos pairs fs a v rest).
  - right. split; [simpl; lia|].
    destruct Hres as [|[n w] f pairs fs Hr Hres].
    + destruct Hfirst as [?|Ha]; [done|]. by eexists a, _.
    + eexists n, _. split; [done|]. by apply (resolves_dash self n f).
Qed.

Lemma parse_run code components self :
  shlex.split code = Ok components →
  parse code self = parse_components components self.
Proof. intros Hs. unfold parse, mbind, M_bind, lift. by rewrite Hs. Qed.

(** X12: the result of a well-formed line.  When the line gives one
    token without leading dash per positional, then (flag, value)
    pairs whose flag names all resolve, and at most one more dash
    token, [parse] returns, and its result is: every flag label at
    [None], then each positional label set to its token, in order, then
    each named flag's label set to its value, in order. *)
Theorem parse_line_result (self : KomandParser) (code : string)
    (pos : list string) (pairs : list (string * string))
    (fs : list OptionalKomandArg.t) (tail : list string) :
  shlex.split code = Ok (pos ++ flatten pairs ++ tail) →
  length pos = length (positionals self) →
  Forall (λ t, startswith t "-" = false) pos →
  Forall2 (λ pair f, resolves self pair.1 f) pairs fs →
  length tail ≤ 1 → Forall (λ d, startswith d "-" = true) tail →
  parse code self =
    (Ok (bind_flags fs pairs.*2
           (bind_positionals (positionals self) pos (absent_flags self))), self).
Proof.
  intros Hs Hlen Hpos Hres Htail Hd.
  rewrite (parse_run _ _ _ Hs). by apply parse_components_line.
Qed.

Lemma parse_line_result_witness :
  getattrs ["P1"; "force"; "flag"]
    (parse "POS1 -f yes --flag no --force maybe" parser_flag_force).1
  = Ok [Some (Some "POS1"); Some (Some "maybe"); Some (Some "no")].
Proof.
  rewrite (parse_line_result parser_flag_force
             "POS1 -f yes --flag no --force maybe" ["POS1"]
             [("-f", "yes"); ("--flag", "no"); ("--force", "maybe")]
             [flag_of_call ["--force"; "-f"] None None; arg_flag;
              flag_of_call ["--force"; "-f"] None None] []).
  - vm_compute. reflexivity.
  - reflexivity.
  - reflexivity.
  - by repeat constructor.
  - repeat constructor; reflexivity.
  - simpl. lia.
  - constructor.
Defined.

(** X13: the first flag name that does not resolve stops [parse].
    After the positionals and pairs that resolve, a token in the place
    of a flag name that is followed by a value and is no spelling of a
    registered flag makes [parse] raise: the unknown-name error when it
    starts with a dash, the unexpected-name error when it does not,
    [IndexError] when it is empty. *)
Theorem parse_unresolved_flag (self : KomandParser) (code : string)
    (pos : list string) (pairs : list (string * string))
    (fs : list OptionalKomandArg.t) (a v : string) (rest : list string) :
  shlex.split code = Ok (pos ++ flatten pairs ++ a :: v :: rest) →
  length pos = length (positionals self) →
  Forall (λ t, startswith t "-" = false) pos →
  Forall2 (λ pair f, resolves self pair.1 f) pairs fs →
  pairs ≠ [] ∨ startswith a "-" = true →
  (∀ flag, ¬ resolves self a flag) →
  parse code self = (Raise (lookup_error a), self).
Proof.
  intros Hs Hlen Hpos Hres Hfirst Hno.
  rewrite (parse_run _ _ _ Hs). by apply (parse_components_unresolved _ _ _ fs).
Qed.

Lemma parse_unresolved_flag_witness :
  parse "POS1 --nope val" parser_flag_force
    = (Raise (UnknownFlagName "--nope"), parser_flag_force)
  ∧ parse "POS1 --flag a b c" parser_flag_force
    = (Raise (UnexpectedFlagName "b"), parser_flag_force).
Proof.
  split.
  - apply (parse_unresolved_flag parser_flag_force "POS1 --nope val"
             ["POS1"] [] [] "--nope" "val" []).
    + reflexivity.
    + reflexivity.
    + by repeat constructor.
    + constructor.
    + by right.
    + intros flag Hflag. vm_compute in Hflag. discriminate.
  - apply (parse_unresolved_flag parser_flag_force "POS1 --flag a b c"
             ["POS1"] [("--flag", "a")] [arg_flag] "b" "c" []).
    + reflexivity.
    + reflexivity.
    + by repeat constructor.
    + repeat constructor; reflexivity.
    + left. discriminate.
    + intros flag Hflag. vm_compute in Hflag. discriminate.
Defined.

(** *** Reading the result *)

Lemma bind_flags_lookup_ne fs values obj name :
  Forall (λ f, flag_label f ≠ name) fs →
  bind_flags fs values obj !! name = obj !! name.
Proof.
  intros Hfs. revert values obj.
  induction Hfs as [|f fs Hf Hfs IH]; intros values obj; [done|].
  destruct values as [|v values]; [done|].
  unfold bind_flags in *. simpl. rewrite IH.
  unfold setattr. by rewrite lookup_insert_ne.
Qed.

Lemma bind_positionals_lookup_ne ps tokens obj name :
  Forall (λ p, positional_label p ≠ name) ps →
  bind_positionals ps tokens obj !! name = obj !! name.
Proof.
  intros Hps. revert tokens obj.
  induction Hps as [|p ps Hp Hps IH]; intros tokens obj; [done|].
  destruct tokens as [|c tokens]; [done|].
  unfold bind_positionals in *. simpl. rewrite IH.
  unfold setattr. by rewrite lookup_insert_ne.
Qed.

Lemma bind_positionals_lookup ps tokens obj i p c :
  ps !! i = Some p → tokens !! i = Some c →
  (∀ j p', i < j → ps !! j = Some p' → positional_label p' ≠ positional_label p) →
  bind_positionals ps tokens obj !! positional_label p = Some (Some c).
Proof.
  revert tokens obj i.
  induction ps as [|q ps IH]; intros tokens obj i Hp Hc Hlater; [done|].
  destruct tokens as [|t tokens]; [done|].
  destruct i as [|i]; simpl in Hp, Hc.
  - injection Hp as ->. injection Hc as ->.
    change (bind_positionals (p :: ps) (c :: tokens) obj)
      with (bind_positionals ps tokens (setattr obj (positional_label p) (Some c))).
    rewrite bind_positionals_lookup_ne.
    + unfold setattr. by rewrite lookup_insert_eq.
    + apply Forall_forall. intros p' Hp'.
      apply list_elem_of_lookup in Hp' as [j Hj].
      apply (Hlater (S j)); [lia|done].
  - change (bind_positionals (q :: ps) (t :: tokens) obj)
      with (bind_positionals ps tokens (setattr obj (positional_label q) (Some t))).
    apply (IH _ _ i); [done..|].
    intros j p' Hj Hp'. apply (Hlater (S j)); [lia|done].
Qed.

Lemma init_flags_loop_lookup l obj name :
  init_flags_loop l obj !! name =
    if decide (name ∈ flag_label <$> l) then Some None else obj !! name.
Proof.
  revert obj. induction l as [|f l IH]; intros obj.
  - destruct (decide (name ∈ flag_label <$> [])) as [Hin|_]; [|done].
    by apply elem_of_nil in Hin.
  - change (init_flags_loop (f :: l) obj)
      with (init_flags_loop l (setattr obj (flag_label f) None)).
    rewrite IH. unfold setattr. rewrite fmap_cons.
    destruct (decide (name ∈ flag_label <$> l)) as [Hin|Hout];
      destruct (decide (name ∈ flag_label f :: (flag_label <$> l)))
        as [Hin'|Hout']; try done.
    + destruct Hout'. by right.
    + apply elem_of_cons in Hin' as [->|?]; [|done]. by rewrite lookup_insert_eq.
    + rewrite lookup_insert_ne; [done|]. intros <-. apply Hout'. by left.
Qed.

(** X14: a flag given a value holds it, and the last value wins.
    When the last (flag, value) pair of a well-formed line names a
    spelling of the flag [f], the result maps the label of [f] to that
    value, whatever earlier pairs or positionals set it to and
    whichever spelling of [f] was used. *)
Theorem parse_flag_last_wins (self : KomandParser) (code : string)
    (pos : list string) (pairs : list (string * string))
    (fs : list OptionalKomandArg.t) (a v : string) (f : OptionalKomandArg.t)
    (tail : list string) :
  shlex.split code = Ok (pos ++ flatten (pairs ++ [(a, v)]) ++ tail) →
  length pos = length (positionals self) →
  Forall (λ t, startswith t "-" = false) pos →
  Forall2 (λ pair g, resolves self pair.1 g) pairs fs →
  resolves self a f →
  length tail ≤ 1 → Forall (λ d, startswith d "-" = true) tail →
  ∃ r, parse code self = (Ok r, self) ∧ r !! flag_label f = Some (Some v).
Proof.
  intros Hs Hlen Hpos Hres Hf Htail Hd.
  rewrite (parse_run _ _ _ Hs).
  rewrite (parse_components_line self pos (pairs ++ [(a, v)]) (fs ++ [f]) tail);
    try done.
  - eexists. split; [done|].
    unfold bind_flags. rewrite fmap_app.
    rewrite zip_with_app
      by (rewrite length_fmap; by apply Forall2_length in Hres).
    rewrite foldl_app. simpl. unfold setattr. by rewrite lookup_insert_eq.
  - apply Forall2_app; [done|]. by repeat constructor.
Qed.

Lemma parse_flag_last_wins_witness :
  ∃ r, parse "POS1 --flag v1 -f x --flag v2 --dangling" parser_flag_force
         = (Ok r, parser_flag_force)
       ∧ r !! flag_label arg_flag = Some (Some "v2").
Proof.
  apply (parse_flag_last_wins parser_flag_force
           "POS1 --flag v1 -f x --flag v2 --dangling" ["POS1"]
           [("--flag", "v1"); ("-f", "x")]
           [arg_flag; flag_of_call ["--force"; "-f"] None None]
           "--flag" "v2" arg_flag ["--dangling"]).
  - reflexivity.
  - reflexivity.
  - by repeat constructor.
  - repeat constructor; reflexivity.
  - reflexivity.
  - simpl. lia.
  - by repeat constructor.
Defined.

(** X15: a positional holds its token.  In the result of a
    well-formed line the label of the positional of rank [i] maps to the
    token of rank [i], unless a later positional or a flag named on the
    line has the same label. *)
Theorem parse_positional_value (self : KomandParser) (code : string)
    (pos : list string) (pairs : list (string * string))
    (fs : list OptionalKomandArg.t) (tail : list string)
    (i : nat) (p : PositionalKomandArg.t) (c : string) :
  shlex.split code = Ok (pos ++ flatten pairs ++ tail) →
  length pos = length (positionals self) →
  Forall (λ t, startswith t "-" = false) pos →
  Forall2 (λ pair g, resolves self pair.1 g) pairs fs →
  length tail ≤ 1 → Forall (λ d, startswith d "-" = true) tail →
  positionals self !! i = Some p → pos !! i = Some c →
  (∀ j p', i < j → positionals self !! j = Some p' →
           positional_label p' ≠ positional_label p) →
  Forall (λ g, flag_label g ≠ positional_label p) fs →
  ∃ r, parse code self = (Ok r, self)
       ∧ r !! positional_label p = Some (Some c).
Proof.
  intros Hs Hlen Hpos Hres Htail Hd Hp Hc Hlater Hfs.
  rewrite (parse_run _ _ _ Hs).
  rewrite (parse_components_line self pos pairs fs tail) by done.
  eexists. split; [done|].
  rewrite bind_flags_lookup_ne by done.
  by apply (bind_positionals_lookup _ _ _ i).
Qed.

Lemma parse_positional_value_witness :
  ∃ r, parse "first second third --b x" parser_a_b = (Ok r, parser_a_b)
       ∧ r !! "P2" = Some (Some "second").
Proof.
  apply (parse_positional_value parser_a_b "first second third --b x"
           ["first"; "second"; "third"] [("--b", "x")] [arg_b] []
           1 (positional_of_call "P2" None None) "second").
  - reflexivity.
  - reflexivity.
  - by repeat constructor.
  - repeat constructor; reflexivity.
  - simpl. lia.
  - constructor.
  - reflexivity.
  - reflexivity.
  - intros j p' Hj Hp'. destruct j as [|[|[|j]]]; try lia; simpl in Hp';
      [|done]. injection Hp' as <-. discriminate.
  - repeat constructor. discriminate.
Defined.

(** X16: a flag that the line does not name stays at [None].  In
    the result of a well-formed line the label of a declared flag maps
    to [None] when no flag named on the line and no positional has that
    label. *)
Theorem parse_unnamed_flag_is_None (self : KomandParser) (code : string)
    (pos : list string) (pairs : list (string * string))
    (fs : list OptionalKomandArg.t) (tail : list string)
    (f : OptionalKomandArg.t) :
  shlex.split code = Ok (pos ++ flatten pairs ++ tail) →
  length pos = length (positionals self) →
  Forall (λ t, startswith t "-" = false) pos →
  Forall2 (λ pair g, resolves self pair.1 g) pairs fs →
  length tail ≤ 1 → Forall (λ d, startswith d "-" = true) tail →
  f ∈ flags self →
  Forall (λ g, flag_label g ≠ flag_label f) fs →
  Forall (λ p, positional_label p ≠ flag_label f) (positionals self) →
  ∃ r, parse code self = (Ok r, self) ∧ r !! flag_label f = Some None.
Proof.
  intros Hs Hlen Hpos Hres Htail Hd Hf Hfs Hps.
  rewrite (parse_run _ _ _ Hs).
  rewrite (parse_components_line self pos pairs fs tail) by done.
  eexists. split; [done|].
  rewrite bind_flags_lookup_ne by done.
  rewrite bind_positionals_lookup_ne by done.
  unfold absent_flags. rewrite init_flags_loop_lookup.
  by rewrite decide_True by by apply list_elem_of_fmap_2.
Qed.

Lemma parse_unnamed_flag_is_None_witness :
  ∃ r, parse "POS1 --flag v" parser_flag_force = (Ok r, parser_flag_force)
       ∧ r !! "force" = Some None.
Proof.
  apply (parse_unnamed_flag_is_None parser_flag_force "POS1 --flag v"
           ["POS1"] [("--flag", "v")] [arg_flag] []
           (flag_of_call ["--force"; "-f"] None None)).
  - reflexivity.
  - reflexivity.
  - by repeat constructor.
  - repeat constructor; reflexivity.
  - simpl. lia.
  - constructor.
  - apply list_elem_of_lookup. by exists 0.
  - repeat constructor. discriminate.
  - repeat constructor. discriminate.
Defined.

(** *** The attributes of any result *)

Lemma attributes_ok_absent self components :
  attributes_ok self components (absent_flags self).
Proof.
  unfold absent_flags. split.
  - intros f Hf. rewrite init_flags_loop_lookup.
    rewrite decide_True by by apply list_elem_of_fmap_2. by eexists.
  - intros name value. rewrite init_flags_loop_lookup.
    destruct (decide (name ∈ flag_label <$> flags self)) as [Hin|Hout]; [|done].
    intros [= <-]. split; [by left|done].
Qed.

Lemma attributes_ok_setattr self components obj name s :
  attributes_ok self components obj →
  name ∈ flag_label <$> flags self
  ∨ name ∈ positional_label <$> positionals self →
  s ∈ components →
  attributes_ok self components (setattr obj name (Some s)).
Proof.
  intros [Hflags Hattr] Hname Hs. unfold setattr. split.
  - intros f Hf. destruct (decide (name = flag_label f)) as [->|Hne].
    + rewrite lookup_insert_eq. by eexists.
    + rewrite lookup_insert_ne by done. by apply Hflags.
  - intros name' value. destruct (decide (name = name')) as [->|Hne].
    + rewrite lookup_insert_eq. intros [= <-]. split; [done|]. by intros s' [= <-].
    + rewrite lookup_insert_ne by done. apply Hattr.
Qed.

Lemma find_loop_Ok_elem flag_name l flag :
  find_flag_with_name_loop flag_name l = Ok flag →
  flag ∈ l ∧ flag_name ∈ OptionalKomandArg.flags flag.
Proof.
  induction l as [|each l IH]; simpl; [done|]. unfold str_in.
  destruct (decide (flag_name ∈ OptionalKomandArg.flags each)) as [Hin|Hout].
  - rewrite bool_decide_eq_true_2 by done. intros [= <-]. split; [by left|done].
  - rewrite bool_decide_eq_false_2 by done. intros [H1 H2]%IH.
    split; [by right|done].
Qed.

Lemma attributes_ok_positional_loop self components rest positional_idx arg_obj
    p arg_obj' self' :
  positional_loop rest positional_idx arg_obj self = (Ok (p, arg_obj'), self') →
  rest ⊆ components →
  attributes_ok self components arg_obj →
  attributes_ok self components arg_obj'.
Proof.
  revert positional_idx arg_obj.
  induction rest as [|component rest IH]; intros positional_idx arg_obj; simpl.
  - by intros [= _ <- _].
  - unfold mbind, M_bind, get_self, lift, raise, index.
    intros Hrun Hsub Hok.
    destruct (startswith component "-").
    + destruct (positional_idx <? length (positionals self)); [done|].
      by injection Hrun as _ <- _.
    + destruct (length (positionals self) <=? positional_idx); [done|].
      destruct (positionals self !! positional_idx) as [q|] eqn:Hq; [|done].
      apply IH in Hrun; [done| |].
      * intros x Hx. apply Hsub. by right.
      * apply attributes_ok_setattr; [done| |].
        -- right. apply (list_elem_of_fmap_2 positional_label).
           by apply list_elem_of_lookup_2 in Hq.
        -- apply Hsub. by left.
Qed.

Lemma attributes_ok_flag_loop self components ks arg_obj arg_obj' self' :
  flag_loop components ks arg_obj self = (Ok arg_obj', self') →
  attributes_ok self components arg_obj →
  attributes_ok self components arg_obj'.
Proof.
  revert arg_obj. induction ks as [|k ks IH]; intros arg_obj; simpl.
  - by intros [= <- _].
  - unfold index. unfold mbind at 1, M_bind at 1, lift at 1.
    destruct (components !! k) as [flag_name|] eqn:Hn; [|done].
    unfold mbind at 1, M_bind at 1, lift at 1.
    destruct (components !! (k + 1)) as [flag_param|] eqn:Hv; [|done].
    rewrite bind_readonly by auto with readonly.
    destruct (find_flag_with_name flag_name self).1 as [flag|] eqn:Hf; [|done].
    intros Hrun Hok. apply IH in Hrun; [done|].
    apply attributes_ok_setattr; [done| |].
    + left. apply find_flag_with_name_Ok_inv in Hf as (_ & _ & Hl).
      apply find_loop_Ok_elem in Hl as [Hl _].
      by apply (list_elem_of_fmap_2 flag_label).
    + by apply list_elem_of_lookup_2 in Hv.
Qed.

(** X17: the attributes of a result.  Whenever [parse] returns, on
    any line, every declared flag label is an attribute of the result,
    every attribute of the result is the label of a declared flag or
    positional, and every value is [None] or one of the tokens of the
    line. *)
Theorem parse_result_attributes (self self' : KomandParser) (code : string)
    (components : list string) (r : ParsedKomandArgs) :
  shlex.split code = Ok components →
  parse code self = (Ok r, self') →
  (∀ f, f ∈ flags self → is_Some (r !! flag_label f))
  ∧ (∀ name value, r !! name = Some value →
       (name ∈ flag_label <$> flags self
        ∨ name ∈ positional_label <$> positionals self)
       ∧ (∀ s, value = Some s → s ∈ components)).
Proof.
  intros Hs. rewrite (parse_run _ _ _ Hs).
  unfold parse_components, mbind, M_bind, get_self.
  destruct (positional_loop components 0 _ self) as [[[p arg_obj]|e] self0]
    eqn:Hpos; [|done].
  pose proof (readonly_positional_loop components 0
                (init_flags_loop (flags self) ∅) self) as Hro.
  rewrite Hpos in Hro. simpl in Hro. subst self0.
  intros Hflags.
  apply (attributes_ok_flag_loop self components) in Hflags; [done|].
  apply (attributes_ok_positional_loop self components) in Hpos; [done|done|].
  apply attributes_ok_absent.
Qed.

Lemma parse_result_attributes_witness :
  ∃ r, (parse "POS1 -f yes --flag" parser_flag_force).1 = Ok r
       ∧ is_Some (r !! flag_label arg_flag).
Proof.
  destruct (parse "POS1 -f yes --flag" parser_flag_force) as [[r|e] self'] eqn:Hrun;
    [|by vm_compute in Hrun].
  exists r. split; [reflexivity|].
  apply (proj1 (parse_result_attributes parser_flag_force self'
                  "POS1 -f yes --flag" ["POS1"; "-f"; "yes"; "--flag"] r
                  eq_refl Hrun)).
  apply list_elem_of_lookup. by exists 1.
Defined.

(** *** The arity errors *)

Lemma count_leading_app pos rest :
  Forall (λ t, startswith t "-" = false) pos →
  count_leading (pos ++ rest) = length pos + count_leading rest.
Proof.
  induction 1 as [|t pos Ht Hpos IH]; simpl; [done|]. rewrite Ht. by rewrite IH.
Qed.

(** X18: a dash token met before every positional has its token
    stops [parse] with the not-enough-positionals error, which carries
    the number of positionals declared and the number of tokens read so
    far; what follows the dash token is not looked at. *)
Theorem parse_not_enough_positionals (self : KomandParser) (code : string)
    (pos : list string) (d : string) (rest : list string) :
  shlex.split code = Ok (pos ++ d :: rest) →
  Forall (λ t, startswith t "-" = false) pos →
  startswith d "-" = true →
  length pos < length (positionals self) →
  parse code self =
    (Raise (NotEnoughPositionals (length (positionals self)) (length pos)), self).
Proof.
  intros Hs Hpos Hd Hlt. rewrite (parse_run _ _ _ Hs).
  unfold parse_components, mbind, M_bind, get_self.
  assert (count_leading (pos ++ d :: rest) = length pos) as Hcount.
  { rewrite count_leading_app by done. simpl. rewrite Hd. lia. }
  rewrite positional_loop_not_enough.
  - simpl. by rewrite Hcount.
  - rewrite Hcount, length_app. simpl. lia.
  - simpl. by rewrite Hcount.
Qed.

Lemma parse_not_enough_positionals_witness :
  parse "first --a x second third" parser_a_b
  = (Raise (NotEnoughPositionals 3 1), parser_a_b).
Proof.
  apply (parse_not_enough_positionals parser_a_b "first --a x second third"
           ["first"] "--a" ["x"; "second"; "third"]).
  - reflexivity.
  - by repeat constructor.
  - reflexivity.
  - simpl. lia.
Defined.

(** X19: a token without leading dash met when every positional has
    its token stops [parse] with the too-many-positionals error, which
    carries the number of positionals declared and that number plus
    one; in particular a positional cannot follow a flag's value, and a
    parser without positionals refuses every line that does not start
    with a dash. *)
Theorem parse_too_much_positionals (self : KomandParser) (code : string)
    (pos : list string) (t : string) (rest : list string) :
  shlex.split code = Ok (pos ++ t :: rest) →
  Forall (λ t, startswith t "-" = false) pos →
  startswith t "-" = false →
  length pos = length (positionals self) →
  parse code self =
    (Raise (TooMuchPositionals (length (positionals self))
              (length (positionals self) + 1)), self).
Proof.
  intros Hs Hpos Ht Hlen. rewrite (parse_run _ _ _ Hs).
  unfold parse_components, mbind, M_bind, get_self.
  rewrite positional_loop_too_much; [done|lia|].
  rewrite count_leading_app by done. simpl. rewrite Ht. lia.
Qed.

Lemma parse_too_much_positionals_witness :
  parse "POS1 extra --flag v" parser_flag_force
  = (Raise (TooMuchPositionals 1 2), parser_flag_force).
Proof.
  apply (parse_too_much_positionals parser_flag_force "POS1 extra --flag v"
           ["POS1"] "extra" ["--flag"; "v"]).
  - reflexivity.
  - by repeat constructor.
  - reflexivity.
  - reflexivity.
Defined.

(** *** Spellings of one flag *)

(** X20: the spelling does not matter.  Two well-formed lines with
    the same positional tokens and the same values, whose flag names
    resolve pairwise to the same flags, parse to the same result. *)
Theorem parse_spelling_independent (self : KomandParser) (code1 code2 : string)
    (pos : list string) (pairs1 pairs2 : list (string * string))
    (fs : list OptionalKomandArg.t) :
  shlex.split code1 = Ok (pos ++ flatten pairs1) →
  shlex.split code2 = Ok (pos ++ flatten pairs2) →
  length pos = length (positionals self) →
  Forall (λ t, startswith t "-" = false) pos →
  Forall2 (λ pair f, resolves self pair.1 f) pairs1 fs →
  Forall2 (λ pair f, resolves self pair.1 f) pairs2 fs →
  pairs1.*2 = pairs2.*2 →
  parse code1 self = parse code2 self.
Proof.
  intros Hs1 Hs2 Hlen Hpos Hres1 Hres2 Hvalues.
  rewrite (parse_run _ _ _ Hs1), (parse_run _ _ _ Hs2).
  rewrite <- (app_nil_r (flatten pairs1)), <- (app_nil_r (flatten pairs2)).
  rewrite (parse_components_line self pos pairs1 fs []);
    [|done|done|done|simpl; lia|constructor].
  rewrite (parse_components_line self pos pairs2 fs []);
    [|done|done|done|simpl; lia|constructor].
  by rewrite Hvalues.
Qed.

Lemma parse_spelling_independent_witness :
  parse "POS1 --force yes --flag no" parser_flag_force
  = parse "POS1 -f yes --flag no" parser_flag_force.
Proof.
  apply (parse_spelling_independent parser_flag_force
           "POS1 --force yes --flag no" "POS1 -f yes --flag no" ["POS1"]
           [("--force", "yes"); ("--flag", "no")]
           [("-f", "yes"); ("--flag", "no")]
           [flag_of_call ["--force"; "-f"] None None; arg_flag]).
  - reflexivity.
  - reflexivity.
  - reflexivity.
  - by repeat constructor.
  - repeat constructor; reflexivity.
  - repeat constructor; reflexivity.
  - reflexivity.
Defined.

(** ** Completion *)

(** X21: the two lookups agree.  On a token that starts with a
    dash, [try_complete_flag_value] never raises; it answers with the
    completions of the flag that [find_flag_with_name] returns for the
    token, and with [None] exactly when [find_flag_with_name] raises. *)
Theorem try_complete_agrees_with_find (self : KomandParser) (token word : string) :
  str_first token = Ok dash →
  try_complete_flag_value token word self =
    (Ok (match (find_flag_with_name token self).1 with
         | Ok flag =>
             Some (KomandArg.do_complete (OptionalKomandArg.base flag) word)
         | Raise _ => None
         end), self).
Proof.
  intros Hc. rewrite try_complete_flag_value_run, try_loop_of_find_loop.
  rewrite find_flag_with_name_run by done.
  by destruct (str_in token (all_names_and_flags self)).
Qed.

Lemma try_complete_agrees_with_find_witness :
  try_complete_flag_value "--flag" "Tr" parser_flag_force
    = (Ok (Some ["True"; "False"]), parser_flag_force)
  ∧ try_complete_flag_value "--nope" "Tr" parser_flag_force
    = (Ok None, parser_flag_force).
Proof.
  split.
  - apply (try_complete_agrees_with_find parser_flag_force "--flag" "Tr").
    reflexivity.
  - apply (try_complete_agrees_with_find parser_flag_force "--nope" "Tr").
    reflexivity.
Defined.

(** X22: completing a flag name.  On a parser built by calls, when
    the last token starts with a dash and the line does not end with a
    space, [do_complete] returns the flag spellings of which the last
    token is a prefix, every spelling of every flag counted, in the
    order of declaration; positional names are never proposed; and the
    list has no duplicate when no call repeated a name within itself. *)
Theorem do_complete_flag_names (calls : list call) (code : string)
    (splitted_code : list string) (last_word : string) (e : ascii) :
  shlex.split code = Ok splitted_code →
  last splitted_code = Some last_word →
  str_first last_word = Ok dash →
  str_last code = Ok e → e ≠ space →
  do_complete code (build calls) =
    (Ok (filter (λ n, startswith n last_word = true) (spellings (build calls))),
     build calls)
  ∧ (Forall (λ c, NoDup (call_name_or_flags c)) calls →
     NoDup (filter (λ n, startswith n last_word = true)
              (spellings (build calls)))).
Proof.
  intros Hs Hl Hc He Hne. split.
  - by apply (do_complete_flag_name_spellings calls code splitted_code last_word e).
  - apply do_complete_flag_name_NoDup.
Qed.

Lemma do_complete_flag_names_witness :
  do_complete "POS1 --f" parser_flag_force
  = (Ok ["--force"; "--flag"], parser_flag_force).
Proof.
  apply (proj1 (do_complete_flag_names
           [mkCall ["P1"] (const_completer ["alpha"; "beta"]) None;
            mkCall ["--force"; "-f"] None None;
            mkCall ["--flag"] (const_completer ["True"; "False"]) None]
           "POS1 --f" ["POS1"; "--f"] "--f" "f"%char
           eq_refl eq_refl eq_refl eq_refl ltac:(discriminate))).
Defined.

(** X23: when [do_complete] returns.  On a parser built by calls,
    [do_complete] returns a list, and leaves the parser as it is, on
    every line that tokenizes to at least one token and to no empty
    token. *)
Theorem do_complete_returns (calls : list call) (code : string)
    (splitted_code : list string) :
  shlex.split code = Ok splitted_code →
  splitted_code ≠ [] →
  Forall (λ t, t ≠ EmptyString) splitted_code →
  ∃ l, do_complete code (build calls) = (Ok l, build calls).
Proof. apply do_complete_total. Qed.

Lemma do_complete_returns_witness :
  ∃ l, do_complete "POS1 --nope 'a b' -" parser_flag_force
       = (Ok l, parser_flag_force).
Proof.
  apply (do_complete_returns
           [mkCall ["P1"] (const_completer ["alpha"; "beta"]) None;
            mkCall ["--force"; "-f"] None None;
            mkCall ["--flag"] (const_completer ["True"; "False"]) None]
           "POS1 --nope 'a b' -" ["POS1"; "--nope"; "a b"; "-"]).
  - reflexivity.
  - discriminate.
  - repeat constructor; discriminate.
Defined.

Lemma read_tokens_blank cs :
  Forall (λ c, ascii_in c shlex.whitespace = true) cs →
  shlex.read_tokens cs shlex.InSpace EmptyString false = Ok [].
Proof. induction 1 as [|c cs Hc Hcs IH]; simpl; [done|]. by rewrite Hc. Qed.

(** X24: the blank line.  On a line that is empty or made of
    whitespace only, [do_complete] raises [IndexError] (there is no
    last token), while [parse] returns the result in which every flag
    label holds [None] and no positional is set, however many
    positionals are declared. *)
Theorem blank_line (self : KomandParser) (code : string) :
  blank code →
  do_complete code self = (Raise IndexError, self)
  ∧ parse code self = (Ok (absent_flags self), self).
Proof.
  intros Hblank. apply read_tokens_blank in Hblank.
  split.
  - unfold do_complete, shlex.split, mbind, M_bind, lift. by rewrite Hblank.
  - unfold parse, shlex.split, mbind, M_bind, lift. by rewrite Hblank.
Qed.

Lemma blank_line_witness :
  do_complete "   " parser_flag_force = (Raise IndexError, parser_flag_force)
  ∧ parse "   " parser_flag_force
    = (Ok (absent_flags parser_flag_force), parser_flag_force).
Proof.
  apply (blank_line parser_flag_force "   ").
  by repeat constructor.
Defined.

(** X25: completing a positional.  When no token of the line is
    empty or starts with a dash, [do_complete] completes the last token
    as the positional whose rank is the number of tokens before it: it
    returns what that positional's completer gives for the last token,
    and the empty list when that positional has no completer or when
    there are not that many positionals. *)
Theorem do_complete_positional (self : KomandParser) (code : string)
    (splitted_code : list string) (last_word : string) :
  shlex.split code = Ok splitted_code →
  last splitted_code = Some last_word →
  Forall (λ t, t ≠ EmptyString ∧ startswith t "-" = false) splitted_code →
  do_complete code self =
    (Ok (match positionals self !! (length splitted_code - 1) with
         | Some guessed_positional =>
             KomandArg.do_complete
               (PositionalKomandArg.base guessed_positional) last_word
         | None => []
         end), self).
Proof.
  intros Hs Hl Htok. rewrite Forall_forall in Htok.
  assert (∀ t, t ∈ splitted_code →
               ∃ c, str_first t = Ok c ∧ c ≠ dash) as Hfirst.
  { intros t [Hne Hd]%Htok.
    destruct (not_startswith_dash_first t Hne Hd) as (c & Hc & Hcd).
    exists c. split; [done|]. by apply bool_decide_eq_false_1 in Hcd. }
  destruct (Hfirst last_word) as (c & Hc & Hcd).
  { rewrite last_lookup in Hl. by apply list_elem_of_lookup_2 in Hl. }
  rewrite (do_complete_enters_value self code splitted_code last_word c);
    [|done..].
  apply do_complete_value_no_answer.
  intros j t _ Hjt. destruct (Hfirst t) as (c' & Hc' & Hcd').
  { by apply list_elem_of_lookup_2 in Hjt. }
  exists c'. split; [done|]. by intros ->.
Qed.

Lemma do_complete_positional_witness :
  do_complete "a b c" parser_a_b = (Ok ["alpha"; "beta"], parser_a_b)
  ∧ do_complete "a b c d" parser_a_b = (Ok [], parser_a_b).
Proof.
  split.
  - apply (do_complete_positional parser_a_b "a b c" ["a"; "b"; "c"] "c").
    + reflexivity.
    + reflexivity.
    + repeat constructor; discriminate.
  - apply (do_complete_positional parser_a_b "a b c d" ["a"; "b"; "c"; "d"] "d").
    + reflexivity.
    + reflexivity.
    + repeat constructor; discriminate.
Defined.

(** ** The default label of a flag *)

Lemma ascii_in_dashes c : ascii_in c "--" = bool_decide (c = dash).
Proof.
  unfold ascii_in. simpl.
  destruct (decide (c = dash)) as [->|Hne].
  - rewrite !bool_decide_eq_true_2; [done..|]. by left.
  - rewrite !bool_decide_eq_false_2; [done..|].
    by intros [?|[?|?%elem_of_nil]%elem_of_cons]%elem_of_cons.
Qed.

Lemma lstrip_dashes s :
  ∃ n, s = String.append (dashes n) (lstrip "--" s)
       ∧ str_first (lstrip "--" s) ≠ Ok dash.
Proof.
  induction s as [|c s IH].
  - by exists 0.
  - change (lstrip "--" (String c s))
      with (if ascii_in c "--" then lstrip "--" s else String c s).
    rewrite ascii_in_dashes.
    destruct (decide (c = dash)) as [->|Hne].
    + rewrite bool_decide_eq_true_2 by done.
      destruct IH as (n & Hs & Hfirst). exists (S n).
      split; [|done].
      change (String dash s
              = String dash (String.append (dashes n) (lstrip "--" s))).
      f_equal. exact Hs.
    + rewrite bool_decide_eq_false_2 by done. exists 0.
      split; [done|]. simpl. congruence.
Qed.

Lemma rstrip_dashes t :
  ∃ m, t = String.append (rstrip "--" t) (dashes m)
       ∧ (str_first t ≠ Ok dash → str_first (rstrip "--" t) ≠ Ok dash).
Proof.
  induction t as [|c t IH].
  - by exists 0.
  - destruct IH as (m & Ht & _).
    change (rstrip "--" (String c t))
      with (match rstrip "--" t with
            | EmptyString =>
                if ascii_in c "--" then EmptyString else String c EmptyString
            | String a r => String c (String a r)
            end).
    rewrite ascii_in_dashes.
    destruct (rstrip "--" t) as [|a r].
    + change (t = dashes m) in Ht. destruct (decide (c = dash)) as [->|Hne].
      * rewrite bool_decide_eq_true_2 by done. exists (S m).
        split; [|done]. change (String dash t = String dash (dashes m)).
        f_equal. exact Ht.
      * rewrite bool_decide_eq_false_2 by done. exists m.
        split; [|simpl; congruence].
        change (String c t = String c (dashes m)). f_equal. exact Ht.
    + exists m. split; [|done].
      change (String c t
              = String c (String.append (String a r) (dashes m))).
      f_equal. exact Ht.
Qed.

(** X26: the default label of a flag.  When a flag is constructed
    without label, its label is its first spelling with dashes removed
    and nothing else: the spelling is one or more dashes, then the
    label, then dashes again or nothing; and the label does not start
    with a dash. *)
Theorem default_flag_label (s : string) (others : list string)
    (completer : option (string → list string)) (help : option string)
    (arg : OptionalKomandArg.t) :
  OptionalKomandArg.init (s :: others) completer None help = Ok arg →
  ∃ n m, 1 ≤ n
         ∧ s = String.append (dashes n) (String.append (flag_label arg) (dashes m))
         ∧ str_first (flag_label arg) ≠ Ok dash.
Proof.
  unfold OptionalKomandArg.init, mbind, result_bind, index. simpl.
  destruct s as [|c s']; [done|]. simpl str_first. unfold mbind, result_bind.
  destruct (bool_decide (c = dash)) eqn:Hc; simpl negb; cbv iota; [|done].
  apply bool_decide_eq_true_1 in Hc. subst c.
  destruct (OptionalKomandArg.check_flags _ others); [|done].
  intros [= <-]. unfold flag_label. simpl. unfold strip.
  destruct (lstrip_dashes (String dash s')) as (n & Hs & Hfirst).
  destruct (rstrip_dashes (lstrip "--" (String dash s'))) as (m & Hl & Hr).
  exists n, m. split; [|split].
  - destruct n; [|lia].
    change (String dash s' = lstrip "--" (String dash s')) in Hs.
    rewrite <- Hs in Hfirst. by destruct Hfirst.
  - rewrite <- Hl. exact Hs.
  - by apply Hr.
Qed.

Lemma default_flag_label_witness :
  ∃ n m, 1 ≤ n
         ∧ "--dry-run-" = String.append (dashes n)
                            (String.append "dry-run" (dashes m))
         ∧ str_first "dry-run" ≠ Ok dash.
Proof.
  apply (default_flag_label "--dry-run-" ["-n"] None None
           (flag_of_call ["--dry-run-"; "-n"] None None)).
  reflexivity.
Defined.

(** ** What the errors mean *)

Lemma check_not_empty_Raise k rest e :
  check_not_empty k rest = Raise e →
  ∃ i, e = EmptyNameOrFlag (k + i) ∧ rest !! i = Some EmptyString.
Proof.
  revert k. induction rest as [|each rest IH]; intros k; simpl; [done|].
  destruct each as [|c w]; simpl.
  - intros [= <-]. exists 0. by rewrite Nat.add_0_r.
  - intros (i & -> & Hi)%IH. exists (S i). split; [f_equal; lia|done].
Qed.

Lemma check_flags_Raise flags rest e :
  Forall (λ n, n ≠ EmptyString) rest →
  OptionalKomandArg.check_flags flags rest = Raise e →
  ∃ t, t ∈ rest ∧ startswith t "-" = false ∧ e = HeterogenousFlags flags t.
Proof.
  induction 1 as [|each rest Hne Hrest IH]; simpl; [done|].
  pose proof (startswith_dash each) as Hd.
  destruct (str_first each) as [c|] eqn:Hc; [|by destruct each].
  unfold mbind, result_bind.
  destruct (bool_decide (c = dash)); simpl negb; cbv iota.
  - intros (t & Ht & Htd & ->)%IH. exists t. split; [by right|done].
  - intros [= <-]. exists each. split; [by left|done].
Qed.

(** X27: what the errors of [add_argument] mean.  A call that
    raises raises one of five errors, each for its cause: the
    empty-string error at the position of an empty name; the
    already-defined error for a name of the call that is registered;
    [IndexError] when the call gives no name; the heterogenous-flags
    error for a name of the call without leading dash, the first name
    having one; the only-one-name error when several names are given
    and the first has no leading dash.  In particular the error of
    [PositionalKomandArg.__init__] is never reached. *)
Theorem add_argument_errors (name_or_flags : list string)
    (completer : option (string → list string)) (label : option string)
    (self : KomandParser) (e : exn) :
  (add_argument name_or_flags completer label self).1 = Raise e →
  (∃ k, e = EmptyNameOrFlag k ∧ name_or_flags !! k = Some EmptyString)
  ∨ (∃ x, e = AlreadyDefined x ∧ x ∈ name_or_flags
          ∧ x ∈ all_names_and_flags self)
  ∨ (e = IndexError ∧ name_or_flags = [])
  ∨ (∃ first t, e = HeterogenousFlags name_or_flags t
                ∧ head name_or_flags = Some first
                ∧ startswith first "-" = true
                ∧ t ∈ name_or_flags ∧ startswith t "-" = false)
  ∨ (∃ first, e = OnlyOneName name_or_flags
              ∧ head name_or_flags = Some first
              ∧ startswith first "-" = false
              ∧ 1 < length name_or_flags).
Proof.
  rewrite add_argument_run.
  destruct (check_not_empty 0 name_or_flags) as [[]|e0] eqn:Hne.
  2:{ intros [= <-]. left. by apply check_not_empty_Raise in Hne. }
  apply check_not_empty_Ok in Hne.
  destruct (check_not_defined_run name_or_flags self)
    as [[-> _]|(x & Hx & Hxin & ->)]; simpl.
  2:{ intros [= <-]. right. left. by exists x. }
  destruct name_or_flags as [|first others].
  { intros [= <-]. right. right. by left. }
  pose proof (startswith_dash first) as Hd.
  destruct (str_first first) as [c|] eqn:Hc.
  2:{ apply Forall_cons in Hne as [Hne _]. by destruct first. }
  destruct (bool_decide (c = dash)) eqn:Hcd.
  - unfold OptionalKomandArg.init, mbind, result_bind.
    destruct (match label with
              | Some l => Ok l
              | None => _
              end) as [lbl|e0] eqn:Hl; [|by destruct label].
    destruct (OptionalKomandArg.check_flags _ _) as [[]|e0] eqn:Hcf; [done|].
    apply check_flags_Raise in Hcf as (t & Ht & Htd & ->); [|done].
    intros [= <-]. right. right. right. left. by exists first, t.
  - destruct others as [|other others]; simpl.
    + unfold PositionalKomandArg.init, mbind, result_bind. rewrite Hc, Hcd.
      by destruct label.
    + intros [= <-]. right. right. right. right. exists first.
      repeat split; [done|simpl; lia].
Qed.

Lemma add_argument_errors_witness :
  (∃ k, HeterogenousFlags ["--x"; "y"] "y" = EmptyNameOrFlag k
        ∧ ["--x"; "y"] !! k = Some EmptyString)
  ∨ (∃ x, HeterogenousFlags ["--x"; "y"] "y" = AlreadyDefined x
          ∧ x ∈ ["--x"; "y"] ∧ x ∈ all_names_and_flags parser_flag_force)
  ∨ (HeterogenousFlags ["--x"; "y"] "y" = IndexError ∧ ["--x"; "y"] = [])
  ∨ (∃ first t, HeterogenousFlags ["--x"; "y"] "y"
                  = HeterogenousFlags ["--x"; "y"] t
                ∧ head ["--x"; "y"] = Some first
                ∧ startswith first "-" = true
                ∧ t ∈ ["--x"; "y"] ∧ startswith t "-" = false)
  ∨ (∃ first, HeterogenousFlags ["--x"; "y"] "y" = OnlyOneName ["--x"; "y"]
              ∧ head ["--x"; "y"] = Some first
              ∧ startswith first "-" = false
              ∧ 1 < length ["--x"; "y"]).
Proof.
  apply (add_argument_errors ["--x"; "y"] None None parser_flag_force
           (HeterogenousFlags ["--x"; "y"] "y")).
  reflexivity.
Defined.

Lemma positional_loop_Raise self rest positional_idx arg_obj e self' :
  positional_idx ≤ length (positionals self) →
  positional_loop rest positional_idx arg_obj self = (Raise e, self') →
  (∃ k, k < length (positionals self)
        ∧ e = NotEnoughPositionals (length (positionals self)) k)
  ∨ e = TooMuchPositionals (length (positionals self))
          (length (positionals self) + 1).
Proof.
  revert positional_idx arg_obj.
  induction rest as [|component rest IH]; intros positional_idx arg_obj Hle;
    simpl; [done|].
  unfold mbind, M_bind, get_self, raise, lift, index.
  destruct (startswith component "-").
  - destruct (positional_idx <? length (positionals self)) eqn:Hlt; [|done].
    apply Nat.ltb_lt in Hlt. intros [= <- _]. left. by exists positional_idx.
  - destruct (length (positionals self) <=? positional_idx) eqn:Hfull.
    + apply Nat.leb_le in Hfull. intros [= <- _]. right.
      by replace positional_idx with (length (positionals self)) by lia.
    + apply Nat.leb_gt in Hfull.
      destruct (lookup_lt_is_Some_2 (positionals self) _ Hfull) as [p ->].
      apply IH. lia.
Qed.

Lemma flag_loop_Raise self components ks arg_obj e self' :
  Forall (λ k, k + 1 < length components) ks →
  flag_loop components ks arg_obj self = (Raise e, self') →
  ∃ a, a ∈ components ∧ (∀ flag, ¬ resolves self a flag) ∧ e = lookup_error a.
Proof.
  intros Hks. revert arg_obj.
  induction Hks as [|k ks Hk Hks IH]; intros arg_obj; simpl; [done|].
  unfold index.
  destruct (lookup_lt_is_Some_2 components k) as [flag_name Hn]; [lia|].
  destruct (lookup_lt_is_Some_2 components (k + 1)) as [flag_param Hv]; [lia|].
  rewrite Hn, Hv.
  unfold mbind at 1, M_bind at 1, lift at 1.
  unfold mbind at 1, M_bind at 1, lift at 1.
  rewrite bind_readonly by auto with readonly.
  destruct (find_flag_with_name flag_name self).1 as [flag|e0] eqn:Hf.
  - apply IH.
  - assert (∀ flag, ¬ resolves self flag_name flag) as Hno.
    { intros flag Hflag. unfold resolves in Hflag. congruence. }
    rewrite (find_flag_with_name_unresolved self flag_name Hno) in Hf.
    injection Hf as <-. intros [= <- _]. exists flag_name.
    split; [by apply list_elem_of_lookup_2 in Hn|done].
Qed.

(** X28: what the errors of [parse] mean.  On a line that
    tokenizes, [parse] raises nothing but: the not-enough-positionals
    error, with the number of positionals and a smaller count; the
    too-many-positionals error, with the number of positionals and that
    number plus one; or the lookup error of a token of the line that is
    no spelling of a registered flag.  No token is ever read out of
    range. *)
Theorem parse_errors (self : KomandParser) (code : string)
    (components : list string) (e : exn) :
  shlex.split code = Ok components →
  (parse code self).1 = Raise e →
  (∃ k, k < length (positionals self)
        ∧ e = NotEnoughPositionals (length (positionals self)) k)
  ∨ e = TooMuchPositionals (length (positionals self))
          (length (positionals self) + 1)
  ∨ (∃ a, a ∈ components ∧ (∀ flag, ¬ resolves self a flag)
          ∧ e = lookup_error a).
Proof.
  intros Hs. rewrite (parse_run _ _ _ Hs).
  unfold parse_components, mbind, M_bind, get_self.
  destruct (positional_loop components 0 _ self) as [[[p arg_obj]|e0] self0]
    eqn:Hpos.
  - pose proof (readonly_positional_loop components 0
                  (init_flags_loop (flags self) ∅) self) as Hro.
    rewrite Hpos in Hro. simpl in Hro. subst self0.
    destruct (flag_loop components _ arg_obj self) as [[r|e0] self1] eqn:Hfl;
      [done|].
    intros [= <-]. right. right.
    apply flag_loop_Raise in Hfl; [done|].
    apply Forall_forall. intros k Hk%elem_of_py_range_2. lia.
  - intros [= <-].
    apply positional_loop_Raise in Hpos as [Hk| ->]; [by left| |lia].
    right. by left.
Qed.

Lemma parse_errors_witness :
  (∃ k, k < length (positionals parser_flag_force)
        ∧ UnknownFlagName "--nope"
          = NotEnoughPositionals (length (positionals parser_flag_force)) k)
  ∨ UnknownFlagName "--nope"
    = TooMuchPositionals (length (positionals parser_flag_force))
        (length (positionals parser_flag_force) + 1)
  ∨ (∃ a, a ∈ ["POS1"; "--flag"; "v"; "--nope"; "w"]
          ∧ (∀ flag, ¬ resolves parser_flag_force a flag)
          ∧ UnknownFlagName "--nope" = lookup_error a).
Proof.
  apply (parse_errors parser_flag_force "POS1 --flag v --nope w"
           ["POS1"; "--flag"; "v"; "--nope"; "w"] (UnknownFlagName "--nope")).
  - reflexivity.
  - reflexivity.
Defined.

Lemma do_complete_flag_name_loop_Raise word rest all_matches e :
  do_complete_flag_name_loop word rest all_matches = Raise e → e = IndexError.
Proof.
  revert all_matches. induction rest as [|each rest IH]; intros all_matches;
    simpl; [done|].
  destruct each as [|c w]; simpl; unfold mbind, result_bind; [by intros [= <-]|].
  destruct (negb (bool_decide (c = dash))); [apply IH|].
  destruct (_ <? _); [apply IH|]. destruct (String.eqb _ _); apply IH.
Qed.

Lemma do_complete_loop_Raise self splitted_code last_word n ks e self' :
  do_complete_loop splitted_code last_word n ks self = (Raise e, self') →
  e = IndexError.
Proof.
  induction ks as [|k ks IH]; simpl; [done|]. unfold index.
  unfold mbind at 1, M_bind at 1, lift at 1.
  destruct (splitted_code !! (n - k)) as [t|]; [|by intros [= <- _]].
  unfold mbind at 1, M_bind at 1, lift at 1.
  destruct t as [|c w]; simpl str_first; cbv beta iota; [by intros [= <- _]|].
  destruct (bool_decide (c = dash)); [|done].
  unfold mbind, M_bind. rewrite try_complete_flag_value_run.
  by destruct (if str_in _ _ then _ else _).
Qed.

Lemma str_last_Raise s e : str_last s = Raise e → e = IndexError.
Proof.
  induction s as [|c s IH]; simpl; [by intros [= <-]|]. by destruct s.
Qed.

(** X29: what the errors of [do_complete] mean.  On a line that
    tokenizes, [do_complete] on a parser built by calls raises nothing
    but [IndexError], and raises it only when the line has no token or
    has an empty token. *)
Theorem do_complete_errors (calls : list call) (code : string)
    (splitted_code : list string) (e : exn) :
  shlex.split code = Ok splitted_code →
  (do_complete code (build calls)).1 = Raise e →
  e = IndexError ∧ (splitted_code = [] ∨ EmptyString ∈ splitted_code).
Proof.
  intros Hs Hraise. split.
  - revert Hraise. unfold do_complete, mbind at 1, M_bind at 1, lift at 1.
    rewrite Hs. unfold index_last.
    unfold mbind at 1, M_bind at 1, lift at 1.
    destruct (last splitted_code) as [last_word|]; [|by intros [= <-]].
    unfold mbind at 1, M_bind at 1, lift at 1.
    destruct last_word as [|c w]; simpl str_first; cbv beta iota;
      [by intros [= <-]|].
    assert (∀ self, (do_complete_value splitted_code (String c w)
                       (length splitted_code - 1) self).1 = Raise e →
                    e = IndexError) as Hvalue.
    { intros self. unfold do_complete_value.
      rewrite bind_readonly by auto with readonly.
      destruct (do_complete_loop _ _ _ _ self) as [[r|e0] self0] eqn:Hloop; simpl.
      - destruct r as [l|]; [done|].
        unfold mbind, M_bind, get_self, lift, index.
        destruct (_ <=? _); [done|].
        destruct (positionals self !! _); [done|]. by intros [= <-].
      - intros [= <-]. by apply do_complete_loop_Raise in Hloop. }
    destruct (bool_decide (c = dash)); [|apply Hvalue].
    unfold mbind at 1, M_bind at 1, lift at 1.
    destruct (str_last code) as [c'|e0] eqn:Hlast;
      [|intros [= <-]; by apply str_last_Raise in Hlast].
    destruct (negb (bool_decide (c' = space))); [|apply Hvalue].
    unfold do_complete_flag_name, mbind, M_bind, get_self, lift. simpl.
    apply do_complete_flag_name_loop_Raise.
  - destruct (decide (splitted_code = [])) as [?|Hnil]; [by left|]. right.
    destruct (decide (EmptyString ∈ splitted_code)) as [?|Hne]; [done|].
    destruct (do_complete_total calls code splitted_code Hs Hnil) as [l Hl].
    + apply Forall_forall. intros t Ht ->. done.
    + rewrite Hl in Hraise. done.
Qed.

Lemma do_complete_errors_witness :
  IndexError = IndexError
  ∧ (["a"; EmptyString; "b"] = [] ∨ EmptyString ∈ ["a"; EmptyString; "b"]).
Proof.
  apply (do_complete_errors
           [mkCall ["P1"] (const_completer ["alpha"; "beta"]) None;
            mkCall ["--force"; "-f"] None None;
            mkCall ["--flag"] (const_completer ["True"; "False"]) None]
           "a '' b" ["a"; EmptyString; "b"] IndexError).
  - reflexivity.
  - reflexivity.
Defined.
